(** * Battleship rules engine: a shallow embedding of the TypeScript core

    The development follows the engine top-down as the source lays it out:
    board cells and the board, ship pieces and players, the two-player game
    whose players share their boards, and the rules state machine that turns
    input events into commands and controls.

    JavaScript values are modelled as follows.
    - Integral [number]s (coordinates, ship ids, counters) are [Z].
    - An array that is read and written by index ([board], a board line) is a
      finite map from indices to elements: a missing key reads as
      [undefined], [delete a[i]] removes the key and [a[i] = v] inserts it.
    - [undefined] where a number is expected is [None]; arithmetic on it is
      [NaN], and every comparison with [NaN] is false.
    - A thrown exception is the left injection of the result, returned
      together with the store as it was when the exception was raised. *)

From Stdlib Require Import ZArith Lia.
From stdpp Require Import base option list gmap.

Local Open Scope Z_scope.

(** ** Vocabulary *)

Inductive ORIENTATION := HORIZONTAL | VERTICAL.

Inductive PLAYER := P1 | P2.

Inductive BSMoveLoc := SHIP_GRID | PIN_GRID.

Inductive BattleShipEvent :=
| BSSelectEvent
| BSUnselectEvent
| BSMoveEvent (to : Z * Z) (loc : BSMoveLoc)
| BSRotateEvent.

Definition BoardPosition : Type := Z * Z.

#[global] Instance ORIENTATION_eq_dec : EqDecision ORIENTATION.
Proof. solve_decision. Defined.

#[global] Instance PLAYER_eq_dec : EqDecision PLAYER.
Proof. solve_decision. Defined.

#[global] Instance BSMoveLoc_eq_dec : EqDecision BSMoveLoc.
Proof. solve_decision. Defined.

(** ** Failures

    The source throws [Error] objects told apart by their message only.  Each
    constructor stands for one message template and keeps the values that
    fill its holes.  [TypeError] is the engine's own exception for reading or
    writing a property of [undefined]. *)

Inductive Failure :=
| PositionOutOfBounds (ship : Z)
| SizeOutOfBounds (ship : Z) (size : option Z)
| AlreadyOccupied (ship : Z) (size : option Z)
| AttackOutOfBounds (x y : Z)
| AlreadyAttacked (x y : Z)
| InvalidShipId (shipId : Z)
| InvalidPart
| AlreadyDamaged (part shipId : Z)
| TypeError.

(** The two messages of [BattleShipBoard.settleShip] that report a ship
    outside the board. *)
Definition isOutOfBounds (e : Failure) : bool :=
  match e with
  | PositionOutOfBounds _ | SizeOutOfBounds _ _ => true
  | _ => false
  end.

(** ** Stateful, fallible computations *)

Definition M (S A : Type) : Type := S -> (Failure + A) * S.

Definition ret {S A} (a : A) : M S A := fun s => (inr a, s).

Definition throw {S A} (e : Failure) : M S A := fun s => (inl e, s).

Definition bind {S A B} (m : M S A) (k : A -> M S B) : M S B :=
  fun s => match m s with
           | (inl e, s') => (inl e, s')
           | (inr a, s') => k a s'
           end.

Definition get {S} : M S S := fun s => (inr s, s).

Definition put {S} (s : S) : M S unit := fun _ => (inr tt, s).

Notation "'do' x <~ m ; k" := (bind m (fun x => k))
  (at level 10, x name, m at level 100, k at level 200).
Notation "'exec' m ; k" := (bind m (fun _ => k))
  (at level 10, m at level 100, k at level 200).

(** [for (const x of xs) body(x)], stopping at the first exception. *)
Fixpoint forEach {S A} (xs : list A) (body : A -> M S unit) : M S unit :=
  match xs with
  | [] => ret tt
  | x :: xs' => exec body x; forEach xs' body
  end.

(** Runs a computation on a component of a larger store. *)
Definition zoom {S T A} (proj : S -> T) (upd : T -> S -> S) (m : M T A) : M S A :=
  fun s => let '(r, t) := m (proj s) in (r, upd t s).

(** ** Ship pieces *)

Record ShipPiece := mkShipPiece {
  ship_id : Z;
  ship_size : option Z;
  ship_orientation : ORIENTATION;
  ship_position : BoardPosition;
  ship_damaged : list bool;
  ship_damage : Z
}.

(** [new ShipPiece(idx, size, orientation, position)]: one [false] per unit
    of length; the loop [for (i = 0; i < size; i++)] does not run for a size
    that is not positive or not a number. *)
Definition newShipPiece (idx : Z) (size : option Z) (o : ORIENTATION)
    (position : BoardPosition) : ShipPiece :=
  {| ship_id := idx;
     ship_size := size;
     ship_orientation := o;
     ship_position := position;
     ship_damaged := replicate (Z.to_nat (default 0 size)) false;
     ship_damage := 0 |}.

(** ** Board cells *)

Inductive BoardCellKind := WATER | SHIP.

Inductive BattleShipBoardCell :=
| WaterBoardCell (attacked : bool)
| ShipBoardCell (shipId shipPart : Z) (attacked : bool).

Definition cellKind (c : BattleShipBoardCell) : BoardCellKind :=
  match c with
  | WaterBoardCell _ => WATER
  | ShipBoardCell _ _ _ => SHIP
  end.

Definition attacked (c : BattleShipBoardCell) : bool :=
  match c with
  | WaterBoardCell a => a
  | ShipBoardCell _ _ a => a
  end.

Definition setAttacked (c : BattleShipBoardCell) : BattleShipBoardCell :=
  match c with
  | WaterBoardCell _ => WaterBoardCell true
  | ShipBoardCell i p _ => ShipBoardCell i p true
  end.

Definition isShip (c : BattleShipBoardCell) : bool :=
  match c with
  | WaterBoardCell _ => false
  | ShipBoardCell _ _ _ => true
  end.

(** ** The board *)

Record BattleShipBoard := mkBoard {
  board : gmap Z (gmap Z BattleShipBoardCell);
  boardSize : Z
}.

Definition setCells (cells : gmap Z (gmap Z BattleShipBoardCell))
    (b : BattleShipBoard) : BattleShipBoard :=
  {| board := cells; boardSize := boardSize b |}.

(** [this.board[x][y]], [None] when either index is missing. *)
Definition cellAt (b : BattleShipBoard) (x y : Z) : option BattleShipBoardCell :=
  board b !! x ≫= fun line => line !! y.

(** [initBoard]: [boardSize] lines of [boardSize] fresh water cells. *)
Definition initLine (n : Z) : gmap Z BattleShipBoardCell :=
  list_to_map ((fun j => (j, WaterBoardCell false)) <$> seqZ 0 n).

Definition initBoard (n : Z) : gmap Z (gmap Z BattleShipBoardCell) :=
  list_to_map ((fun i => (i, initLine n)) <$> seqZ 0 n).

Definition newBoard (n : Z) : BattleShipBoard :=
  {| board := initBoard n; boardSize := n |}.

(** The positions visited by
    [for (pos = c - (size-1)/2; pos <= c + (size-1)/2; pos++)].
    The division is exact division on numbers.  For an odd size the positions
    are the [size] integers around [c].  For an even size they are [size]
    half-integers, none of which is an array index: such a position is
    [None].  For a size that is not a number the bounds are [NaN] and the
    loop does not run. *)
Definition run (c : Z) (size : option Z) : list (option Z) :=
  match size with
  | Some s =>
      if Z.odd s then Some <$> seqZ (c - (s - 1) / 2) s
      else replicate (Z.to_nat s) None
  | None => []
  end.

(** [c - (size-1)/2 < 0 || c + (size-1)/2 >= boardSize], with both sides of
    each comparison doubled so that the half of an odd [size - 1] stays
    exact. *)
Definition extentOut (c : Z) (size : option Z) (bs : Z) : bool :=
  match size with
  | Some s => (2 * c - (s - 1) <? 0) || (2 * c + (s - 1) >=? 2 * bs)
  | None => false
  end.

(** [this.board[x][y].cellKind === SHIP] throws the overlap error; reading
    [cellKind] of a missing cell is a [TypeError]. *)
Definition checkFree (ship : ShipPiece) (x y : option Z) : M BattleShipBoard unit :=
  do b <~ get;
  match x, y with
  | Some x, Some y =>
      match cellAt b x y with
      | Some c =>
          if isShip c then throw (AlreadyOccupied (ship_id ship) (ship_size ship))
          else ret tt
      | None => throw TypeError
      end
  | _, _ => throw TypeError
  end.

(** [delete this.board[x][y]; this.board[x][y] = cell].  A missing line makes
    both statements a [TypeError].  A position that is not an index would
    name a plain property and leave the elements alone; [settleShip] never
    gets that far, see [checkFree]. *)
Definition writeCell (x y : option Z) (cell : BattleShipBoardCell) : M BattleShipBoard unit :=
  do b <~ get;
  match x with
  | Some x =>
      match board b !! x with
      | Some line =>
          match y with
          | Some y => put (setCells (<[x := <[y := cell]> (delete y line)]> (board b)) b)
          | None => ret tt
          end
      | None => throw TypeError
      end
  | None => throw TypeError
  end.

Module Board.

(** [BattleShipBoard.settleShip(ship)] *)
Definition settleShip (ship : ShipPiece) : M BattleShipBoard unit :=
  let '(x, y) := ship_position ship in
  do b <~ get;
  if (x <? 0) || (x >=? boardSize b) || (y <? 0) || (y >? boardSize b)
  then throw (PositionOutOfBounds (ship_id ship))
  else
    match ship_orientation ship with
    | HORIZONTAL =>
        if extentOut y (ship_size ship) (boardSize b)
        then throw (SizeOutOfBounds (ship_id ship) (ship_size ship))
        else
          exec forEach (run y (ship_size ship)) (fun pos => checkFree ship (Some x) pos);
          forEach (run y (ship_size ship))
            (fun pos => writeCell (Some x) pos
                          (ShipBoardCell (ship_id ship) (default 0 pos) false))
    | VERTICAL =>
        if extentOut x (ship_size ship) (boardSize b)
        then throw (SizeOutOfBounds (ship_id ship) (ship_size ship))
        else
          exec forEach (run x (ship_size ship)) (fun pos => checkFree ship pos (Some y));
          forEach (run x (ship_size ship))
            (fun pos => writeCell pos (Some y)
                          (ShipBoardCell (ship_id ship) (default 0 pos) false))
    end.

(** [BattleShipBoard.attack(target)] *)
Definition attack (target : BoardPosition) : M BattleShipBoard (option (Z * Z)) :=
  let '(x, y) := target in
  do b <~ get;
  if (x <? 0) || (y <? 0) || (x >=? boardSize b) || (y >=? boardSize b)
  then throw (AttackOutOfBounds x y)
  else
    match board b !! x with
    | None => throw TypeError
    | Some line =>
        match line !! y with
        | None => throw TypeError
        | Some cell =>
            if attacked cell then throw (AlreadyAttacked x y)
            else
              exec put (setCells (<[x := <[y := setAttacked cell]> line]> (board b)) b);
              ret (match cell with
                   | ShipBoardCell i p _ => Some (i, p)
                   | WaterBoardCell _ => None
                   end)
        end
    end.

End Board.

(** ** Players

    The two boards live in the game; a player refers to them.  Player 1's
    pin board is player 2's ship board and conversely, so a mark made through
    one player's pin board is seen on the other player's ship board. *)

Inductive BoardRef := BoardOfP1 | BoardOfP2.

Record BattleShipPlayer := mkPlayer {
  playerId : PLAYER;
  ships : list ShipPiece;
  shipBoard : BoardRef;
  pinBoard : BoardRef;
  shipCount : Z
}.

Definition newPlayer (pid : PLAYER) (sb pb : BoardRef) : BattleShipPlayer :=
  {| playerId := pid; ships := []; shipBoard := sb; pinBoard := pb; shipCount := 0 |}.

Record BattleShipGame := mkGame {
  boardP1 : BattleShipBoard;
  boardP2 : BattleShipBoard;
  p1 : BattleShipPlayer;
  p2 : BattleShipPlayer
}.

(** The fields [p1] and [p2] of the game. *)
Inductive Seat := SeatP1 | SeatP2.

Definition getPlayer (s : Seat) (g : BattleShipGame) : BattleShipPlayer :=
  match s with SeatP1 => p1 g | SeatP2 => p2 g end.

Definition setPlayer (s : Seat) (p : BattleShipPlayer) (g : BattleShipGame) : BattleShipGame :=
  match s with
  | SeatP1 => {| boardP1 := boardP1 g; boardP2 := boardP2 g; p1 := p; p2 := p2 g |}
  | SeatP2 => {| boardP1 := boardP1 g; boardP2 := boardP2 g; p1 := p1 g; p2 := p |}
  end.

Definition getBoard (r : BoardRef) (g : BattleShipGame) : BattleShipBoard :=
  match r with BoardOfP1 => boardP1 g | BoardOfP2 => boardP2 g end.

Definition setBoard (r : BoardRef) (b : BattleShipBoard) (g : BattleShipGame) : BattleShipGame :=
  match r with
  | BoardOfP1 => {| boardP1 := b; boardP2 := boardP2 g; p1 := p1 g; p2 := p2 g |}
  | BoardOfP2 => {| boardP1 := boardP1 g; boardP2 := b; p1 := p1 g; p2 := p2 g |}
  end.

Definition onBoard {A} (r : BoardRef) (m : M BattleShipBoard A) : M BattleShipGame A :=
  zoom (getBoard r) (setBoard r) m.

Definition onPlayer {A} (s : Seat) (m : M BattleShipPlayer A) : M BattleShipGame A :=
  zoom (getPlayer s) (setPlayer s) m.

(** [a[i] = v] on an array of booleans that is only ever tested for
    truthiness: past the end the array grows, and the holes, which read as
    [undefined], are kept as [false]. *)
Definition assignFlag (l : list bool) (i : nat) (v : bool) : list bool :=
  if decide (i < length l)%nat then <[i := v]> l
  else l ++ replicate (i - length l) false ++ [v].

Definition setShip (i : nat) (s : ShipPiece) (p : BattleShipPlayer) : BattleShipPlayer :=
  {| playerId := playerId p; ships := <[i := s]> (ships p);
     shipBoard := shipBoard p; pinBoard := pinBoard p; shipCount := shipCount p |}.

Definition pushShip (s : ShipPiece) (p : BattleShipPlayer) : BattleShipPlayer :=
  {| playerId := playerId p; ships := ships p ++ [s];
     shipBoard := shipBoard p; pinBoard := pinBoard p; shipCount := shipCount p |}.

Definition setShipCount (n : Z) (p : BattleShipPlayer) : BattleShipPlayer :=
  {| playerId := playerId p; ships := ships p;
     shipBoard := shipBoard p; pinBoard := pinBoard p; shipCount := n |}.

Definition damagePart (part : nat) (s : ShipPiece) : ShipPiece :=
  {| ship_id := ship_id s; ship_size := ship_size s;
     ship_orientation := ship_orientation s; ship_position := ship_position s;
     ship_damaged := assignFlag (ship_damaged s) part true;
     ship_damage := ship_damage s + 1 |}.

(** [part >= ship.size] and [ship.damage === ship.size] on a size that may
    be [undefined]. *)
Definition geSize (n : Z) (size : option Z) : bool :=
  match size with Some s => n >=? s | None => false end.

Definition eqSize (n : Z) (size : option Z) : bool :=
  match size with Some s => n =? s | None => false end.

Module Player.

(** [BattleShipPlayer.settleShip(size, orientation, position)] *)
Definition settleShip (self : Seat) (size : option Z) (o : ORIENTATION)
    (position : BoardPosition) : M BattleShipGame unit :=
  do g <~ get;
  let this := getPlayer self g in
  let ship := newShipPiece (shipCount this) size o position in
  exec onBoard (shipBoard this) (Board.settleShip ship);
  exec onPlayer self (do p <~ get; put (pushShip ship p));
  onPlayer self (do p <~ get; put (setShipCount (shipCount p + 1) p)).

(** [BattleShipPlayer.attack(target)] *)
Definition attack (self : Seat) (target : BoardPosition) : M BattleShipGame (option (Z * Z)) :=
  do g <~ get;
  onBoard (pinBoard (getPlayer self g)) (Board.attack target).

(** [BattleShipPlayer.receiveDamage(shipId, part)] *)
Definition receiveDamage (shipId part : Z) : M BattleShipPlayer bool :=
  do this <~ get;
  if (shipId <? 0) || (shipId >=? Z.of_nat (length (ships this)))
  then throw (InvalidShipId shipId)
  else
    match ships this !! Z.to_nat shipId with
    | None => throw TypeError
    | Some ship =>
        if (part <? 0) || geSize part (ship_size ship) then throw InvalidPart
        else if default false (ship_damaged ship !! Z.to_nat part)
        then throw (AlreadyDamaged part shipId)
        else
          let ship' := damagePart (Z.to_nat part) ship in
          exec put (setShip (Z.to_nat shipId) ship' this);
          if eqSize (ship_damage ship') (ship_size ship')
          then
            exec (do p <~ get; put (setShipCount (shipCount p - 1) p));
            ret true
          else ret false
    end.

End Player.

(** ** The game *)

Definition newGame (size : Z) : BattleShipGame :=
  {| boardP1 := newBoard size;
     boardP2 := newBoard size;
     p1 := newPlayer P1 BoardOfP1 BoardOfP2;
     p2 := newPlayer P2 BoardOfP2 BoardOfP1 |}.

Module Game.

(** [BattleShipGame.settleShip(player, shipSize, shipOrientation, shipPosition)] *)
Definition settleShip (player : PLAYER) (shipSize : option Z) (o : ORIENTATION)
    (shipPosition : BoardPosition) : M BattleShipGame unit :=
  do g <~ get;
  if decide (playerId (p1 g) = player)
  then Player.settleShip SeatP1 shipSize o shipPosition
  else Player.settleShip SeatP2 shipSize o shipPosition.

(** [BattleShipGame.attack(attackerId, target)] *)
Definition attack (attackerId : PLAYER) (target : BoardPosition) : M BattleShipGame bool :=
  let '(attacker, attacked) :=
    if decide (attackerId = P1) then (SeatP1, SeatP2) else (SeatP2, SeatP1) in
  do attackReport <~ Player.attack attacker target;
  match attackReport with
  | Some (damagedShipId, damagedShipPart) =>
      exec onPlayer attacked (Player.receiveDamage damagedShipId damagedShipPart);
      do g <~ get;
      ret (shipCount (getPlayer attacked g) =? 0)
  | None => ret false
  end.

End Game.

(** ** Settings *)

Record BattleShipSettings := mkSettings {
  settings_boardSize : Z;
  shipCountByType : list Z;
  shipSizeByType : list Z
}.

(** The field initialisers of [BattleShipSettings]. *)
Definition defaultSettings : BattleShipSettings :=
  {| settings_boardSize := 10;
     shipCountByType := [2; 2; 1];
     shipSizeByType := [1; 3; 5] |}.

(** [buildShipSizeSequence]: [for (let shipType in this.shipCountByType)],
    the indices of the counts in order; for each, [shipSizeByType[shipType]]
    pushed as many times as the count says.  A ship type past the end of the
    sizes pushes [undefined], here [None]. *)
Definition buildShipSizeSequence (s : BattleShipSettings) : list (option Z) :=
  concat (imap (fun shipType shipCount =>
                  replicate (Z.to_nat shipCount) (shipSizeByType s !! shipType))
            (shipCountByType s)).

(** ** Rule states *)

Record ShipCraftState := mkShipCraft {
  sc_player : PLAYER;
  sc_selected : bool;
  sc_shipSizeSequence : list (option Z);
  sc_shipSizeIterator : nat;
  sc_orientation : ORIENTATION;
  sc_pos : option BoardPosition
}.

Record BattleState := mkBattle {
  bt_player : PLAYER;
  bt_selected : bool;
  bt_pos : option BoardPosition
}.

Record GameOverState := mkGameOver {
  go_player : PLAYER
}.

Inductive BattleShipState :=
| SHIP_CRAFTING (s : ShipCraftState)
| BATTLE (s : BattleState)
| GAME_OVER (s : GameOverState).

Definition newShipCraftState (shipSizeSequence : list (option Z)) (player : PLAYER)
  : ShipCraftState :=
  {| sc_player := player;
     sc_selected := false;
     sc_shipSizeSequence := shipSizeSequence;
     sc_shipSizeIterator := 0;
     sc_orientation := HORIZONTAL;
     sc_pos := None |}.

Definition newBattleState : BattleState :=
  {| bt_player := P1; bt_selected := false; bt_pos := None |}.

Definition statePlayer (st : BattleShipState) : PLAYER :=
  match st with
  | SHIP_CRAFTING s => sc_player s
  | BATTLE s => bt_player s
  | GAME_OVER s => go_player s
  end.

(** [clone()]: a copy field by field, except that [BattleState.clone] builds
    a new [BattleState] and copies [selected] and [pos] only. *)
Definition clone (st : BattleShipState) : BattleShipState :=
  match st with
  | SHIP_CRAFTING s => SHIP_CRAFTING s
  | BATTLE s =>
      BATTLE {| bt_player := bt_player newBattleState;
                bt_selected := bt_selected s;
                bt_pos := bt_pos s |}
  | GAME_OVER s => GAME_OVER s
  end.

Definition sc_setSelected (v : bool) (s : ShipCraftState) : ShipCraftState :=
  {| sc_player := sc_player s; sc_selected := v;
     sc_shipSizeSequence := sc_shipSizeSequence s;
     sc_shipSizeIterator := sc_shipSizeIterator s;
     sc_orientation := sc_orientation s; sc_pos := sc_pos s |}.

Definition sc_setIterator (v : nat) (s : ShipCraftState) : ShipCraftState :=
  {| sc_player := sc_player s; sc_selected := sc_selected s;
     sc_shipSizeSequence := sc_shipSizeSequence s;
     sc_shipSizeIterator := v;
     sc_orientation := sc_orientation s; sc_pos := sc_pos s |}.

Definition sc_setPlayer (v : PLAYER) (s : ShipCraftState) : ShipCraftState :=
  {| sc_player := v; sc_selected := sc_selected s;
     sc_shipSizeSequence := sc_shipSizeSequence s;
     sc_shipSizeIterator := sc_shipSizeIterator s;
     sc_orientation := sc_orientation s; sc_pos := sc_pos s |}.

Definition sc_setOrientation (v : ORIENTATION) (s : ShipCraftState) : ShipCraftState :=
  {| sc_player := sc_player s; sc_selected := sc_selected s;
     sc_shipSizeSequence := sc_shipSizeSequence s;
     sc_shipSizeIterator := sc_shipSizeIterator s;
     sc_orientation := v; sc_pos := sc_pos s |}.

Definition sc_setPos (v : option BoardPosition) (s : ShipCraftState) : ShipCraftState :=
  {| sc_player := sc_player s; sc_selected := sc_selected s;
     sc_shipSizeSequence := sc_shipSizeSequence s;
     sc_shipSizeIterator := sc_shipSizeIterator s;
     sc_orientation := sc_orientation s; sc_pos := v |}.

(** [ShipCraftState.nextShipSize()]: [None] is [null]; otherwise the element
    under the cursor, which is then advanced.  [Some None] is [undefined],
    read from an undefined entry or past the end of the sequence. *)
Definition nextShipSize (s : ShipCraftState) : option (option Z) * ShipCraftState :=
  if decide (sc_shipSizeIterator s = length (sc_shipSizeSequence s)) then (None, s)
  else (Some (mjoin (sc_shipSizeSequence s !! sc_shipSizeIterator s)),
        sc_setIterator (S (sc_shipSizeIterator s)) s).

(** [ShipCraftState.reset()] *)
Definition sc_reset (s : ShipCraftState) : ShipCraftState :=
  {| sc_player := sc_player s; sc_selected := false;
     sc_shipSizeSequence := sc_shipSizeSequence s;
     sc_shipSizeIterator := 0;
     sc_orientation := HORIZONTAL; sc_pos := None |}.

(** [BattleState.reset()] *)
Definition bt_reset (s : BattleState) : BattleState :=
  {| bt_player := bt_player s; bt_selected := false; bt_pos := None |}.

Definition bt_setSelected (v : bool) (s : BattleState) : BattleState :=
  {| bt_player := bt_player s; bt_selected := v; bt_pos := bt_pos s |}.

Definition bt_setPos (v : option BoardPosition) (s : BattleState) : BattleState :=
  {| bt_player := bt_player s; bt_selected := bt_selected s; bt_pos := v |}.

(** ** Commands and controls *)

(** The text of an [ErrorCmd], kept as the template it is built from and the
    values interpolated into it. *)
Inductive ErrorLog :=
| NoShipsP1
| NoShipsP2
| SettleError (player : PLAYER) (size : option Z) (o : ORIENTATION)
    (pos : BoardPosition) (e : Failure)
| AttackError (player : PLAYER) (pos : BoardPosition) (e : Failure).

Inductive BattleShipCommand :=
| ChangePlayerCmd
| MakeShipCmd (size : option Z)
| MakePinCmd
| SelectPinCmd
| SelectShipCmd
| MovePinCmd (to : BoardPosition)
| RotateShipCmd
| MoveShipCmd (to : BoardPosition)
| SettlePinCmd
| SettleShipCmd
| ErrorCmd (log : ErrorLog).

Inductive BattleShipControl :=
| EnableSelection | DisableSelection
| EnableUnselection | DisableUnselection
| EnableRotation | DisableRotation
| EnableMove | DisableMove.

(** ** The rules *)

Module Rules.

(** The object state the rules work on: their own [gameState] and the game
    passed to [apply]. *)
Definition World : Type := BattleShipState * BattleShipGame.

Definition new (settings : BattleShipSettings) : BattleShipState :=
  SHIP_CRAFTING (newShipCraftState (buildShipSizeSequence settings) P1).

(** A size is falsy when it is [null], [undefined] or [0]. *)
Definition truthy (size : option (option Z)) : bool :=
  match size with
  | Some (Some n) => negb (n =? 0)
  | _ => false
  end.

(** [initView()]; it throws outside the crafting phase, here [None]. *)
Definition initView (st : BattleShipState) : option (list BattleShipCommand * BattleShipState) :=
  match st with
  | SHIP_CRAFTING s =>
      let '(size, s') := nextShipSize s in
      Some ([if truthy size then MakeShipCmd (mjoin size) else ErrorCmd NoShipsP1],
            SHIP_CRAFTING s')
  | _ => None
  end.

Definition initInteraction : list BattleShipControl :=
  [EnableSelection; EnableUnselection; EnableRotation; EnableMove].

(** [init()] *)
Definition init (st : BattleShipState)
  : option ((list BattleShipCommand * list BattleShipControl) * BattleShipState) :=
  match initView st with
  | Some (cmds, st') => Some ((cmds, initInteraction), st')
  | None => None
  end.

(** [generateControls(beforeState)], with the present state as [now]. *)
Definition generateControls (beforeState now : BattleShipState) : list BattleShipControl :=
  match beforeState with
  | SHIP_CRAFTING b =>
      if decide (sc_player b = P2 /\ statePlayer now = P1) then [DisableRotation] else []
  | BATTLE _ =>
      match now with
      | GAME_OVER _ => [DisableSelection; DisableUnselection; DisableMove]
      | _ => []
      end
  | GAME_OVER _ => []
  end.

Definition processSelect (w : World) : list BattleShipCommand * World :=
  let '(st, game) := w in
  match st with
  | SHIP_CRAFTING s =>
      if sc_selected s then ([], w)
      else ([SelectShipCmd], (SHIP_CRAFTING (sc_setSelected true s), game))
  | BATTLE s =>
      if bt_selected s then ([], w)
      else ([SelectPinCmd], (BATTLE (bt_setSelected true s), game))
  | GAME_OVER _ => ([], w)
  end.

(** The tail of the crafting branch of [processUnselect], after the ship was
    settled and [SettleShipCmd] pushed. *)
Definition afterSettle (s : ShipCraftState) : list BattleShipCommand * BattleShipState :=
  let '(nextSize, s1) := nextShipSize s in
  match nextSize with
  | Some size => ([MakeShipCmd size], SHIP_CRAFTING s1)
  | None =>
      match sc_player s1 with
      | P1 =>
          let '(nextSize, s2) := nextShipSize (sc_setPlayer P2 (sc_reset s1)) in
          match nextSize with
          | None => ([ChangePlayerCmd; ErrorCmd NoShipsP2], SHIP_CRAFTING s2)
          | Some size => ([ChangePlayerCmd; MakeShipCmd size], SHIP_CRAFTING s2)
          end
      | P2 => ([], BATTLE newBattleState)
      end
  end.

Definition processUnselect (w : World) : list BattleShipCommand * World :=
  let '(st, game) := w in
  match st with
  | SHIP_CRAFTING s =>
      if sc_selected s then
        let player := sc_player s in
        let shipSize := mjoin (sc_shipSizeSequence s !! sc_shipSizeIterator s) in
        let orientation := sc_orientation s in
        let s0 := sc_setSelected false s in
        match sc_pos s with
        | None => ([SettleShipCmd], (SHIP_CRAFTING s0, game))
        | Some pos =>
            match Game.settleShip player shipSize orientation pos game with
            | (inl e, game') =>
                ([ErrorCmd (SettleError player shipSize orientation pos e)],
                 (SHIP_CRAFTING s0, game'))
            | (inr _, game') =>
                let '(cmds, st') := afterSettle s0 in
                (SettleShipCmd :: cmds, (st', game'))
            end
        end
      else ([], w)
  | BATTLE s =>
      if bt_selected s then
        let player := bt_player s in
        match bt_pos s with
        | None => ([SettlePinCmd], (BATTLE (bt_setSelected false s), game))
        | Some pos =>
            match Game.attack player pos game with
            | (inl e, game') =>
                ([ErrorCmd (AttackError player pos e)], (BATTLE s, game'))
            | (inr gameEnded, game') =>
                if gameEnded then ([], (GAME_OVER {| go_player := player |}, game'))
                else ([SettlePinCmd; ChangePlayerCmd; MakePinCmd],
                      (BATTLE (bt_reset s), game'))
            end
        end
      else ([], w)
  | GAME_OVER _ => ([], w)
  end.

Definition processRotate (w : World) : list BattleShipCommand * World :=
  let '(st, game) := w in
  match st with
  | SHIP_CRAFTING s =>
      if sc_selected s then
        ([RotateShipCmd],
         (SHIP_CRAFTING
            (sc_setOrientation
               (match sc_orientation s with VERTICAL => HORIZONTAL | HORIZONTAL => VERTICAL end)
               s),
          game))
      else ([], w)
  | _ => ([], w)
  end.

Definition processMove (loc : BSMoveLoc) (to : BoardPosition) (w : World)
  : list BattleShipCommand * World :=
  let '(st, game) := w in
  match st with
  | SHIP_CRAFTING s =>
      if decide (loc = SHIP_GRID) then
        if sc_selected s
        then ([MoveShipCmd to], (SHIP_CRAFTING (sc_setPos (Some to) s), game))
        else ([], w)
      else ([], w)
  | BATTLE s =>
      if decide (loc = PIN_GRID) then
        if bt_selected s
        then ([MovePinCmd to], (BATTLE (bt_setPos (Some to) s), game))
        else ([], w)
      else ([], w)
  | GAME_OVER _ => ([], w)
  end.

(** [apply(event, game)] *)
Definition apply (event : BattleShipEvent) (w : World)
  : (list BattleShipCommand * list BattleShipControl) * World :=
  let beforeState := clone w.1 in
  let '(cmds, w') :=
    match event with
    | BSSelectEvent => processSelect w
    | BSUnselectEvent => processUnselect w
    | BSRotateEvent => processRotate w
    | BSMoveEvent to loc => processMove loc to w
    end in
  ((cmds, generateControls beforeState w'.1), w').

(** Events applied one after the other, the commands of all of them in
    order. *)
Fixpoint applyAll (events : list BattleShipEvent) (w : World)
  : list BattleShipCommand * World :=
  match events with
  | [] => ([], w)
  | ev :: rest =>
      let '((cmds, _), w1) := apply ev w in
      let '(cmds', w2) := applyAll rest w1 in
      (cmds ++ cmds', w2)
  end.

End Rules.

(** * Vocabulary of the properties *)

(** A computation that never changes the store. *)
Definition readOnly {S A} (m : M S A) : Prop :=
  forall s r s', m s = (r, s') -> s' = s.

(** A board as the constructor leaves it, and as [settleShip] and [attack]
    keep it: exactly the positions of the grid hold a cell. *)
Definition inGrid (b : BattleShipBoard) (x y : Z) : Prop :=
  0 <= x < boardSize b /\ 0 <= y < boardSize b.

Definition boardOk (b : BattleShipBoard) : Prop :=
  forall x y, is_Some (cellAt b x y) <-> inGrid b x y.

(** The marking loop of either orientation: [fx] and [fy] give the line and
    the column written for a loop position, [cell] the cell put there. *)
Definition markBody (fx fy : option Z -> option Z) (cell : option Z -> BattleShipBoardCell)
    (pos : option Z) : M BattleShipBoard unit :=
  writeCell (fx pos) (fy pos) (cell pos).

(** The cell the marking loop leaves at a position: the one written last
    there, if any. *)
Definition written (fx fy : option Z -> option Z) (cell : option Z -> BattleShipBoardCell)
    (ps : list (option Z)) (x y : Z) : option BattleShipBoardCell :=
  cell <$> last (filter (fun pos => fx pos = Some x /\ fy pos = Some y) ps).

(** The line and the column a loop position stands for, and the coordinate
    the loop runs around, by orientation. *)
Definition lineOf (o : ORIENTATION) (x : Z) (pos : option Z) : option Z :=
  match o with HORIZONTAL => Some x | VERTICAL => pos end.

Definition columnOf (o : ORIENTATION) (y : Z) (pos : option Z) : option Z :=
  match o with HORIZONTAL => pos | VERTICAL => Some y end.

Definition centre (o : ORIENTATION) (p : BoardPosition) : Z :=
  match o with HORIZONTAL => p.2 | VERTICAL => p.1 end.

Definition anchorOut (b : BattleShipBoard) (p : BoardPosition) : bool :=
  (p.1 <? 0) || (p.1 >=? boardSize b) || (p.2 <? 0) || (p.2 >? boardSize b).

Definition shipCell (ship : ShipPiece) (pos : option Z) : BattleShipBoardCell :=
  ShipBoardCell (ship_id ship) (default 0 pos) false.

(** The positions the two loops of [settleShip] go through. *)
Definition shipRun (ship : ShipPiece) : list (option Z) :=
  run (centre (ship_orientation ship) (ship_position ship)) (ship_size ship).

(** What the board holds after the marking loop. *)
Definition marked (ship : ShipPiece) (x y : Z) : option BattleShipBoardCell :=
  written (lineOf (ship_orientation ship) (ship_position ship).1)
          (columnOf (ship_orientation ship) (ship_position ship).2)
          (shipCell ship) (shipRun ship) x y.

(** What [attack] returns for a cell that was not attacked before. *)
Definition report (c : BattleShipBoardCell) : option (Z * Z) :=
  match c with
  | ShipBoardCell i p _ => Some (i, p)
  | WaterBoardCell _ => None
  end.

(** A board with a three-long ship on its first line, and a second ship
    dropped across it. *)
Definition boardWithShip : BattleShipBoard :=
  (Board.settleShip (newShipPiece 0 (Some 3) HORIZONTAL (0, 5)) (newBoard 10)).2.

(** The parts of a damage record that are marked. *)
Definition flagged (l : list bool) : Z :=
  Z.of_nat (length (filter (fun v => v = true) l)).

(** A ship whose last part was hit: the event that takes it off its owner's
    counter. *)
Definition sunk (s : ShipPiece) : bool :=
  match ship_size s with
  | Some n => (0 <? n) && (ship_damage s =? n)
  | None => false
  end.

(** The damage record is as long as the ship and the damage counter counts
    its marks. *)
Definition shipOk (s : ShipPiece) : Prop :=
  match ship_size s with
  | Some n =>
      length (ship_damaged s) = Z.to_nat n /\ ship_damage s = flagged (ship_damaged s)
  | None => True
  end.

(** The counter of live ships is the roster less the sunk ships. *)
Definition playerOk (p : BattleShipPlayer) : Prop :=
  Forall shipOk (ships p) /\
  shipCount p
  = Z.of_nat (length (ships p))
    - Z.of_nat (length (filter (fun s => sunk s = true) (ships p))).

Definition gameOk (g : BattleShipGame) : Prop := playerOk (p1 g) /\ playerOk (p2 g).

(** The games the public operations of [BattleShipGame] lead to, whether
    they return or throw. *)
Inductive reachable : BattleShipGame -> Prop :=
| reach_new (n : Z) : reachable (newGame n)
| reach_settle g player size o pos :
    reachable g -> reachable (Game.settleShip player size o pos g).2
| reach_attack g attackerId target :
    reachable g -> reachable (Game.attack attackerId target g).2.

(** The seat [attack] takes the attacked player from. *)
Definition defender (attackerId : PLAYER) : Seat :=
  if decide (attackerId = P1) then SeatP2 else SeatP1.

(** [receiveDamage] called once per part, in order; each call's outcome with
    the owner's counter of live ships right after it. *)
Fixpoint damageAll (shipId : Z) (parts : list Z) (p : BattleShipPlayer)
  : list ((Failure + bool) * Z) :=
  match parts with
  | [] => []
  | part :: rest =>
      let '(r, p') := Player.receiveDamage shipId part p in
      (r, shipCount p') :: damageAll shipId rest p'
  end.

(** A player with one fresh ship of size 3. *)
Definition playerWithShip : BattleShipPlayer :=
  {| playerId := P1;
     ships := [newShipPiece 0 (Some 3) HORIZONTAL (0, 1)];
     shipBoard := BoardOfP1; pinBoard := BoardOfP2;
     shipCount := 1 |}.

(** Player 2 has one ship of size 1 in the corner; player 1 hits it. *)
Definition gameLastShip : BattleShipGame :=
  (Game.settleShip P2 (Some 1) HORIZONTAL (0, 0) (newGame 10)).2.

(** Player 2 has one ship of size 3 lying around (0, 5), on the cells
    (0, 4), (0, 5) and (0, 6); player 1 fires at it. *)
Definition gameShipAtFive : BattleShipGame :=
  (Game.settleShip P2 (Some 3) HORIZONTAL (0, 5) (newGame 10)).2.

(** The phases in the order the game goes through them. *)
Definition phase (st : BattleShipState) : nat :=
  match st with
  | SHIP_CRAFTING _ => 0
  | BATTLE _ => 1
  | GAME_OVER _ => 2
  end.

(** The world right after the constructors, and after [init()]. *)
Definition startWorld : Rules.World := (Rules.new defaultSettings, newGame 10).

Definition initialWorld : Rules.World :=
  match Rules.init startWorld.1 with
  | Some (_, st) => (st, startWorld.2)
  | None => startWorld
  end.

(** Pick the piece up, move it over a cell, let it go. *)
Definition place (p : BoardPosition) : list BattleShipEvent :=
  [BSSelectEvent; BSMoveEvent p SHIP_GRID; BSUnselectEvent].

(** Player 1 has placed one ship, picked the next piece up and holds it over
    the last column of line 0. *)
Definition worldAtEdge : Rules.World :=
  (Rules.applyAll (place (0, 0) ++ [BSSelectEvent; BSMoveEvent (0, 9) SHIP_GRID])
     initialWorld).2.

Definition craftingOf (st : BattleShipState) : ShipCraftState :=
  match st with
  | SHIP_CRAFTING s => s
  | _ => newShipCraftState [] P1
  end.

(** The sizes of the ships in a player's roster, in placement order. *)
Definition settledSizes (p : BattleShipPlayer) : list (option Z) :=
  ship_size <$> ships p.

(** The sizes announced by the [MakeShipCmd]s of a command list. *)
Definition announcedSizes (cmds : list BattleShipCommand) : list (option Z) :=
  omap (fun c => match c with MakeShipCmd size => Some size | _ => None end) cmds.

(** ** Vocabulary of the further properties *)

(** The cell a ship of size [s] covers at index [k] along its axis. *)
Definition runCell (o : ORIENTATION) (p : BoardPosition) (s k : Z) : Z * Z :=
  match o with
  | HORIZONTAL => (p.1, p.2 - (s - 1) / 2 + k)
  | VERTICAL => (p.1 - (s - 1) / 2 + k, p.2)
  end.

(** The references the constructor of [BattleShipGame] hands to the two
    players: each player's pin board is the other's ship board. *)
Definition wired (g : BattleShipGame) : Prop :=
  playerId (p1 g) = P1 /\ playerId (p2 g) = P2 /\
  shipBoard (p1 g) = BoardOfP1 /\ pinBoard (p1 g) = BoardOfP2 /\
  shipBoard (p2 g) = BoardOfP2 /\ pinBoard (p2 g) = BoardOfP1.

Definition seatOf (player : PLAYER) : Seat :=
  match player with P1 => SeatP1 | P2 => SeatP2 end.

Definition otherSeat (s : Seat) : Seat :=
  match s with SeatP1 => SeatP2 | SeatP2 => SeatP1 end.

Definition boardOfSeat (s : Seat) : BoardRef :=
  match s with SeatP1 => BoardOfP1 | SeatP2 => BoardOfP2 end.

(** The games reached from a new game by settling ships only, as in the
    crafting phase. *)
Inductive placing : BattleShipGame -> Prop :=
| placing_new (n : Z) : placing (newGame n)
| placing_settle g player size o pos :
    placing g -> placing (Game.settleShip player size o pos g).2.

(** Every ship cell of a player's ship board names a ship of that player's
    roster. *)
Definition cellsNamed (g : BattleShipGame) (s : Seat) : Prop :=
  forall x y i p a,
    cellAt (getBoard (boardOfSeat s) g) x y = Some (ShipBoardCell i p a) ->
    0 <= i < Z.of_nat (length (ships (getPlayer s g))).

(** What the operations of the game keep true of a game built by the
    constructor. *)
Definition gameSound (g : BattleShipGame) : Prop :=
  wired g /\ gameOk g /\
  boardOk (boardP1 g) /\ boardOk (boardP2 g) /\
  cellsNamed g SeatP1 /\ cellsNamed g SeatP2.

(** The failures [Game.attack] lets through in play. *)
Definition attackFailure (e : Failure) : bool :=
  match e with
  | AttackOutOfBounds _ _ | AlreadyAttacked _ _ | InvalidPart | AlreadyDamaged _ _ => true
  | _ => false
  end.

(** The cursor of the crafting phase is within the sequence or just past its
    end. *)
Definition cursorOk (st : BattleShipState) : Prop :=
  match st with
  | SHIP_CRAFTING s => (sc_shipSizeIterator s <= length (sc_shipSizeSequence s))%nat
  | _ => True
  end.

Definition sequenceOf (st : BattleShipState) : list (option Z) :=
  match st with
  | SHIP_CRAFTING s => sc_shipSizeSequence s
  | _ => []
  end.

(** The controls [apply] hands out, by the phases before and after. *)
Definition controlsFor (before after : nat) : list BattleShipControl :=
  match before, after with
  | 0%nat, 1%nat => [DisableRotation]
  | 1%nat, 2%nat => [DisableSelection; DisableUnselection; DisableMove]
  | _, _ => []
  end.

(** The player whose turn or win a state outside the crafting phase
    records. *)
Definition firstPlayerOnly (st : BattleShipState) : Prop :=
  match st with
  | SHIP_CRAFTING _ => True
  | BATTLE s => bt_player s = P1
  | GAME_OVER s => go_player s = P1
  end.

(** The constructor of [BattleShipSettings] returns, rather than throws,
    when no ship size leaves remainder 0 on division by 2. *)
Definition constructible (s : BattleShipSettings) : bool :=
  forallb (fun size => negb (Z.rem size 2 =? 0)) (shipSizeByType s).

(** A roster as placement leaves it: the counter of live ships is the
    length of the roster, and the ship at index [i] has id [i] and no
    damage. *)
Definition freshRoster (p : BattleShipPlayer) : Prop :=
  shipCount p = Z.of_nat (length (ships p)) /\
  forall i ship,
    ships p !! i = Some ship ->
    ship_id ship = Z.of_nat i /\ ship_damage ship = 0 /\
    Forall (fun v => v = false) (ship_damaged ship).

(** The ids of the ships in a player's roster, in placement order. *)
Definition rosterIds (p : BattleShipPlayer) : list Z := ship_id <$> ships p.

(** A world in which the attacked player can no longer lose: the game is as
    its operations keep it, and once the battle has begun player 1 attacks
    and player 2's roster holds a ship without a size. *)
Definition unsinkable (w : Rules.World) : Prop :=
  gameSound w.2 /\
  match w.1 with
  | SHIP_CRAFTING _ => True
  | BATTLE s => bt_player s = P1 /\ None ∈ settledSizes (p2 w.2)
  | GAME_OVER _ => False
  end.

(** ** The board of the from-origin variant

    A later version of [BattleShipBoard.settleShip] in the same file lets a
    ship run from its anchor on: [for (pos = y; pos < y + ship.size; pos++)]
    after the test [y + ship.size >= this.boardSize].  Cells, the anchor test
    and the two loops' bodies are those of the centred version. *)

Module Origin.

(** The positions visited by [for (pos = c; pos < c + size; pos++)]. *)
Definition run (c : Z) (size : option Z) : list (option Z) :=
  match size with
  | Some s => Some <$> seqZ c s
  | None => []
  end.

(** [c + size >= boardSize] *)
Definition extentOut (c : Z) (size : option Z) (bs : Z) : bool :=
  match size with
  | Some s => c + s >=? bs
  | None => false
  end.

(** [BattleShipBoard.settleShip(ship)], from-origin version *)
Definition settleShip (ship : ShipPiece) : M BattleShipBoard unit :=
  let '(x, y) := ship_position ship in
  do b <~ get;
  if (x <? 0) || (x >=? boardSize b) || (y <? 0) || (y >? boardSize b)
  then throw (PositionOutOfBounds (ship_id ship))
  else
    match ship_orientation ship with
    | HORIZONTAL =>
        if extentOut y (ship_size ship) (boardSize b)
        then throw (SizeOutOfBounds (ship_id ship) (ship_size ship))
        else
          exec forEach (run y (ship_size ship)) (fun pos => checkFree ship (Some x) pos);
          forEach (run y (ship_size ship))
            (fun pos => writeCell (Some x) pos
                          (ShipBoardCell (ship_id ship) (default 0 pos) false))
    | VERTICAL =>
        if extentOut x (ship_size ship) (boardSize b)
        then throw (SizeOutOfBounds (ship_id ship) (ship_size ship))
        else
          exec forEach (run x (ship_size ship)) (fun pos => checkFree ship pos (Some y));
          forEach (run x (ship_size ship))
            (fun pos => writeCell pos (Some y)
                          (ShipBoardCell (ship_id ship) (default 0 pos) false))
    end.

(** The cell a ship of the from-origin version covers at index [k]. *)
Definition runCell (o : ORIENTATION) (p : BoardPosition) (k : Z) : Z * Z :=
  match o with
  | HORIZONTAL => (p.1, p.2 + k)
  | VERTICAL => (p.1 + k, p.2)
  end.

End Origin.

(** ** The main class: rules, game and sensor handlers *)

(** Which of the sensor's four handlers are set. *)
Record Handlers := mkHandlers {
  selectHandler : bool;
  unselectHandler : bool;
  rotateHandler : bool;
  moveHandler : bool
}.

Definition noHandlers : Handlers :=
  {| selectHandler := false; unselectHandler := false;
     rotateHandler := false; moveHandler := false |}.

Module BattleShip.

Definition setHandler (c : BattleShipControl) (h : Handlers) : Handlers :=
  match c with
  | EnableSelection =>
      {| selectHandler := true; unselectHandler := unselectHandler h;
         rotateHandler := rotateHandler h; moveHandler := moveHandler h |}
  | DisableSelection =>
      {| selectHandler := false; unselectHandler := unselectHandler h;
         rotateHandler := rotateHandler h; moveHandler := moveHandler h |}
  | EnableUnselection =>
      {| selectHandler := selectHandler h; unselectHandler := true;
         rotateHandler := rotateHandler h; moveHandler := moveHandler h |}
  | DisableUnselection =>
      {| selectHandler := selectHandler h; unselectHandler := false;
         rotateHandler := rotateHandler h; moveHandler := moveHandler h |}
  | EnableRotation =>
      {| selectHandler := selectHandler h; unselectHandler := unselectHandler h;
         rotateHandler := true; moveHandler := moveHandler h |}
  | DisableRotation =>
      {| selectHandler := selectHandler h; unselectHandler := unselectHandler h;
         rotateHandler := false; moveHandler := moveHandler h |}
  | EnableMove =>
      {| selectHandler := selectHandler h; unselectHandler := unselectHandler h;
         rotateHandler := rotateHandler h; moveHandler := true |}
  | DisableMove =>
      {| selectHandler := selectHandler h; unselectHandler := unselectHandler h;
         rotateHandler := rotateHandler h; moveHandler := false |}
  end.

(** [updateSensor(controls)]: the controls in order, each setting or
    clearing its handler. *)
Definition updateSensor (controls : list BattleShipControl) (h : Handlers) : Handlers :=
  fold_left (fun h c => setHandler c h) controls h.

(** The fields of the main class: the rules' state, the game and the
    sensor's handlers. *)
Definition State : Type := Rules.World * Handlers.

(** [new BattleShip(settings, sensor, presenter)] *)
Definition new (settings : BattleShipSettings) : State :=
  ((Rules.new settings, newGame (settings_boardSize settings)), noHandlers).

(** [init()]: the commands for the presenter, or [None] when [rules.init]
    throws. *)
Definition init (st : State) : option (list BattleShipCommand * State) :=
  match Rules.init st.1.1 with
  | Some ((cmds, controls), rs) => Some (cmds, ((rs, st.1.2), updateSensor controls st.2))
  | None => None
  end.

(** [update(event)] *)
Definition update (event : BattleShipEvent) (st : State) : list BattleShipCommand * State :=
  let '((cmds, controls), w) := Rules.apply event st.1 in
  (cmds, (w, updateSensor controls st.2)).

Fixpoint updateAll (events : list BattleShipEvent) (st : State) : State :=
  match events with
  | [] => st
  | ev :: rest => updateAll rest (update ev st).2
  end.

End BattleShip.

(** The sensor as the rules mean it to be: select, unselect and move set,
    rotate set exactly in the crafting phase. *)
Definition armed (st : Rules.World * Handlers) : Prop :=
  selectHandler st.2 = true /\ unselectHandler st.2 = true /\
  moveHandler st.2 = true /\
  (rotateHandler st.2 = true <-> phase st.1.1 = 0%nat).

(** * Properties *)

(** ** Computations *)

Ltac unfoldM :=
  simpl in *; unfold bind, get, put, ret, throw, zoom in *; simpl in *.

Lemma forEach_readOnly {S A} (xs : list A) (body : A -> M S unit) :
  (forall x, readOnly (body x)) -> readOnly (forEach xs body).
Proof.
  intros Hbody. induction xs as [|x xs IH]; intros s r s' H.
  - unfoldM. congruence.
  - simpl in H. unfold bind in H.
    destruct (body x s) as [[e|[]] s1] eqn:E.
    + apply Hbody in E. congruence.
    + apply Hbody in E. subst s1. eauto.
Qed.

Lemma forEach_readOnly_all {S A} (xs : list A) (body : A -> M S unit) s s' :
  (forall x, readOnly (body x)) ->
  forEach xs body s = (inr tt, s') ->
  forall x, x ∈ xs -> body x s = (inr tt, s).
Proof.
  intros Hbody. induction xs as [|x xs IH]; intros H y Hy.
  - inversion Hy.
  - simpl in H. unfold bind in H.
    destruct (body x s) as [[e|[]] s1] eqn:E; [congruence|].
    pose proof (Hbody _ _ _ _ E) as ->.
    apply elem_of_cons in Hy as [->|Hy]; [assumption|]. eauto.
Qed.

(** ** Board lines and cells *)

Lemma initLine_lookup n y :
  initLine n !! y = if decide (0 <= y < n) then Some (WaterBoardCell false) else None.
Proof.
  unfold initLine. case_decide as Hy.
  - apply elem_of_list_to_map.
    + rewrite <- list_fmap_compose. simpl. rewrite list_fmap_id. apply NoDup_seqZ.
    + apply list_elem_of_fmap. exists y. split; [done|]. apply elem_of_seqZ. lia.
  - apply not_elem_of_list_to_map. rewrite <- list_fmap_compose. simpl.
    rewrite list_fmap_id. rewrite elem_of_seqZ. lia.
Qed.

Lemma initBoard_lookup n x :
  initBoard n !! x = if decide (0 <= x < n) then Some (initLine n) else None.
Proof.
  unfold initBoard. case_decide as Hx.
  - apply elem_of_list_to_map.
    + rewrite <- list_fmap_compose. simpl. rewrite list_fmap_id. apply NoDup_seqZ.
    + apply list_elem_of_fmap. exists x. split; [done|]. apply elem_of_seqZ. lia.
  - apply not_elem_of_list_to_map. rewrite <- list_fmap_compose. simpl.
    rewrite list_fmap_id. rewrite elem_of_seqZ. lia.
Qed.

Lemma newBoard_cell n x y :
  cellAt (newBoard n) x y
  = if decide (0 <= x < n /\ 0 <= y < n) then Some (WaterBoardCell false) else None.
Proof.
  unfold cellAt, newBoard. simpl. rewrite initBoard_lookup.
  destruct (decide (0 <= x < n)) as [Hx|Hx]; simpl.
  - rewrite initLine_lookup. repeat case_decide; tauto.
  - case_decide; tauto.
Qed.

Lemma newBoard_ok n : boardOk (newBoard n).
Proof.
  intros x y. rewrite newBoard_cell. unfold inGrid. simpl.
  case_decide as Hg; split; intros H'; try tauto; try done.
  all: by destruct H'.
Qed.

Lemma cellAt_write b x y c line x' y' :
  board b !! x = Some line ->
  cellAt (setCells (<[x := <[y := c]> (delete y line)]> (board b)) b) x' y'
  = if decide (x' = x /\ y' = y) then Some c else cellAt b x' y'.
Proof.
  intros Hline. unfold cellAt, setCells. simpl.
  destruct (decide (x' = x)) as [->|Hx].
  - rewrite lookup_insert_eq, Hline. simpl.
    destruct (decide (y' = y)) as [->|Hy].
    + rewrite lookup_insert_eq. case_decide; tauto.
    + rewrite lookup_insert_ne, lookup_delete_ne by done. case_decide; tauto.
  - rewrite lookup_insert_ne by done. case_decide; tauto.
Qed.

Lemma cellAt_mark b x y c line x' y' :
  board b !! x = Some line ->
  cellAt (setCells (<[x := <[y := c]> line]> (board b)) b) x' y'
  = if decide (x' = x /\ y' = y) then Some c else cellAt b x' y'.
Proof.
  intros Hline. unfold cellAt, setCells. simpl.
  destruct (decide (x' = x)) as [->|Hx].
  - rewrite lookup_insert_eq, Hline. simpl.
    destruct (decide (y' = y)) as [->|Hy].
    + rewrite lookup_insert_eq. case_decide; tauto.
    + rewrite lookup_insert_ne by done. case_decide; tauto.
  - rewrite lookup_insert_ne by done. case_decide; tauto.
Qed.

(** ** Settling on a board *)

Lemma checkFree_readOnly ship x y : readOnly (checkFree ship x y).
Proof.
  intros b r b' H. unfold checkFree in H. unfoldM.
  destruct x, y; try (inversion H; done).
  destruct (cellAt b z z0) as [c|]; [destruct (isShip c)|]; by inversion H.
Qed.

Lemma checkFree_ok ship x y b u b' :
  checkFree ship x y b = (inr u, b') ->
  exists x0 y0 c, x = Some x0 /\ y = Some y0 /\ cellAt b x0 y0 = Some c /\ isShip c = false.
Proof.
  intros H. unfold checkFree in H. unfoldM.
  destruct x as [x0|], y as [y0|]; try (inversion H; done).
  destruct (cellAt b x0 y0) as [c|] eqn:E; [|by inversion H].
  destruct (isShip c) eqn:Ec; [by inversion H|].
  by exists x0, y0, c.
Qed.

Lemma cellAt_line b x y c : cellAt b x y = Some c -> is_Some (board b !! x).
Proof. unfold cellAt. destruct (board b !! x); [eauto|done]. Qed.

Lemma markLoop_runs fx fy cell ps b :
  (forall pos, pos ∈ ps ->
     exists x0 y0, fx pos = Some x0 /\ fy pos = Some y0 /\ is_Some (board b !! x0)) ->
  exists b',
    forEach ps (markBody fx fy cell) b = (inr tt, b') /\
    boardSize b' = boardSize b /\
    forall x y, cellAt b' x y = from_option Some (cellAt b x y) (written fx fy cell ps x y).
Proof.
  revert b. induction ps as [|pos ps IH]; intros b Hps.
  - exists b. by repeat split.
  - destruct (Hps pos) as (x0 & y0 & Hx & Hy & [line Hline]); [left|].
    set (b1 := setCells (<[x0 := <[y0 := cell pos]> (delete y0 line)]> (board b)) b).
    assert (E1 : markBody fx fy cell pos b = (inr tt, b1)).
    { unfold markBody, writeCell. unfoldM. by rewrite Hx, Hline, Hy. }
    destruct (IH b1) as (b' & Hrun & Hsize & Hcells).
    { intros q Hq. destruct (Hps q) as (x1 & y1 & Hx1 & Hy1 & Hl1); [by right|].
      exists x1, y1. repeat split; try done.
      unfold b1, setCells. simpl.
      destruct (decide (x1 = x0)) as [->|Hne].
      - rewrite lookup_insert_eq. eauto.
      - by rewrite lookup_insert_ne. }
    exists b'. split; [|split].
    + simpl. unfold bind. by rewrite E1.
    + by rewrite Hsize.
    + intros x y. rewrite Hcells. unfold written. rewrite filter_cons.
      unfold b1. rewrite cellAt_write by done.
      destruct (decide (fx pos = Some x /\ fy pos = Some y)) as [[Hpx Hpy]|Hn].
      * assert (x = x0) as -> by congruence. assert (y = y0) as -> by congruence.
        rewrite decide_True by done.
        destruct (filter _ ps) as [|q qs] eqn:Ef; [done|].
        change (last (pos :: q :: qs)) with (last (q :: qs)).
        destruct (last (q :: qs)) eqn:El; [done|].
        by apply last_None in El.
      * rewrite decide_False; [done|].
        intros [-> ->]. apply Hn. by rewrite Hx, Hy.
Qed.

Lemma settleShip_unfold ship :
  Board.settleShip ship =
  (do b <~ get;
   if anchorOut b (ship_position ship)
   then throw (PositionOutOfBounds (ship_id ship))
   else if extentOut (centre (ship_orientation ship) (ship_position ship))
             (ship_size ship) (boardSize b)
   then throw (SizeOutOfBounds (ship_id ship) (ship_size ship))
   else
     exec forEach (shipRun ship)
       (fun pos => checkFree ship
                     (lineOf (ship_orientation ship) (ship_position ship).1 pos)
                     (columnOf (ship_orientation ship) (ship_position ship).2 pos));
     forEach (shipRun ship)
       (markBody (lineOf (ship_orientation ship) (ship_position ship).1)
                 (columnOf (ship_orientation ship) (ship_position ship).2)
                 (shipCell ship))).
Proof.
  unfold Board.settleShip, shipRun, anchorOut.
  destruct (ship_position ship) as [x y], (ship_orientation ship); reflexivity.
Qed.

(** Every way [settleShip] can end.  A failure comes from one of the two
    tests or from the checking loop and leaves the board as it was; the
    marking loop, once reached, runs to its end. *)
Lemma settleShip_cases ship b r b' :
  Board.settleShip ship b = (r, b') ->
  match r with
  | inl e =>
      b' = b /\
      (if anchorOut b (ship_position ship) then e = PositionOutOfBounds (ship_id ship)
       else if extentOut (centre (ship_orientation ship) (ship_position ship))
                 (ship_size ship) (boardSize b)
       then e = SizeOutOfBounds (ship_id ship) (ship_size ship)
       else e = TypeError \/ e = AlreadyOccupied (ship_id ship) (ship_size ship))
  | inr _ =>
      anchorOut b (ship_position ship) = false /\
      extentOut (centre (ship_orientation ship) (ship_position ship))
        (ship_size ship) (boardSize b) = false /\
      boardSize b' = boardSize b /\
      (forall pos, pos ∈ shipRun ship ->
         exists x0 y0 c,
           lineOf (ship_orientation ship) (ship_position ship).1 pos = Some x0 /\
           columnOf (ship_orientation ship) (ship_position ship).2 pos = Some y0 /\
           cellAt b x0 y0 = Some c /\ isShip c = false) /\
      (forall x y, cellAt b' x y = from_option Some (cellAt b x y) (marked ship x y))
  end.
Proof.
  rewrite settleShip_unfold. unfold bind at 1, get.
  destruct (anchorOut b (ship_position ship)) eqn:Ea.
  { unfold throw. intros [= <- <-]. done. }
  destruct (extentOut _ _ _) eqn:Ee.
  { unfold throw. intros [= <- <-]. done. }
  unfold bind.
  set (check := fun pos => checkFree ship _ _).
  assert (Hro : forall pos, readOnly (check pos)).
  { intros pos. apply checkFree_readOnly. }
  destruct (forEach (shipRun ship) check b) as [[e|[]] b1] eqn:Ec.
  - pose proof (forEach_readOnly _ _ Hro _ _ _ Ec) as ->.
    intros [= <- <-]. split; [done|].
    clear Ea Ee. revert Ec. induction (shipRun ship) as [|pos ps IH]; simpl.
    + unfold ret. congruence.
    + unfold bind. destruct (check pos b) as [[e'|[]] b2] eqn:E1.
      * intros [= ->]. unfold check in E1.
        destruct (lineOf (ship_orientation ship) (ship_position ship).1 pos) as [x0|],
                 (columnOf (ship_orientation ship) (ship_position ship).2 pos) as [y0|];
          unfold checkFree in E1; unfoldM; try (inversion E1; by left).
        destruct (cellAt b x0 y0) as [c|]; [destruct (isShip c)|];
          inversion E1; auto.
      * pose proof (Hro _ _ _ _ E1) as ->. done.
  - pose proof (forEach_readOnly _ _ Hro _ _ _ Ec) as ->.
    assert (Hall : forall pos, pos ∈ shipRun ship ->
      exists x0 y0 c,
        lineOf (ship_orientation ship) (ship_position ship).1 pos = Some x0 /\
        columnOf (ship_orientation ship) (ship_position ship).2 pos = Some y0 /\
        cellAt b x0 y0 = Some c /\ isShip c = false).
    { intros pos Hpos.
      pose proof (forEach_readOnly_all _ _ _ _ Hro Ec pos Hpos) as E1.
      by apply checkFree_ok in E1. }
    destruct (markLoop_runs
                (lineOf (ship_orientation ship) (ship_position ship).1)
                (columnOf (ship_orientation ship) (ship_position ship).2)
                (shipCell ship) (shipRun ship) b) as (b2 & Hrun & Hsize & Hcells).
    { intros pos Hpos. destruct (Hall pos Hpos) as (x0 & y0 & c & Hx & Hy & Hc & _).
      exists x0, y0. repeat split; try done. by eapply cellAt_line. }
    rewrite Hrun. intros [= <- <-]. done.
Qed.

Lemma written_Some fx fy cell ps x y c :
  written fx fy cell ps x y = Some c ->
  exists pos, pos ∈ ps /\ fx pos = Some x /\ fy pos = Some y /\ c = cell pos.
Proof.
  unfold written. intros H. apply fmap_Some in H as (pos & Hl & ->).
  apply last_Some in Hl as [l' Hl].
  assert (Hin : pos ∈ filter (fun pos => fx pos = Some x /\ fy pos = Some y) ps).
  { rewrite Hl. apply elem_of_app. right. by left. }
  apply list_elem_of_filter in Hin as [[Hx Hy] Hin]. by exists pos.
Qed.

Lemma written_unique fx fy cell ps x y pos :
  pos ∈ ps -> fx pos = Some x -> fy pos = Some y ->
  (forall q, q ∈ ps -> fx q = Some x -> fy q = Some y -> q = pos) ->
  written fx fy cell ps x y = Some (cell pos).
Proof.
  intros Hin Hx Hy Huniq. unfold written.
  destruct (last (filter (fun pos => fx pos = Some x /\ fy pos = Some y) ps))
    as [q|] eqn:El.
  - apply last_Some in El as [l' El].
    assert (Hq : q ∈ filter (fun pos => fx pos = Some x /\ fy pos = Some y) ps).
    { rewrite El. apply elem_of_app. right. by left. }
    apply list_elem_of_filter in Hq as [[Hqx Hqy] Hq].
    simpl. f_equal. f_equal. by apply Huniq.
  - apply last_None in El.
    exfalso. eapply filter_nil_not_elem_of; [exact El| |exact Hin]. done.
Qed.

Lemma settleShip_boardOk ship b r b' :
  boardOk b -> Board.settleShip ship b = (r, b') -> boardOk b'.
Proof.
  intros Hok H. apply settleShip_cases in H. destruct r as [e|u].
  - by destruct H as [-> _].
  - destruct H as (_ & _ & Hsize & Hall & Hcells).
    intros x y. unfold inGrid. rewrite Hsize, Hcells.
    destruct (marked ship x y) as [c|] eqn:Em; simpl; [|apply Hok].
    apply written_Some in Em as (pos & Hpos & Hx & Hy & _).
    destruct (Hall pos Hpos) as (x0 & y0 & c0 & Hx0 & Hy0 & Hc & _).
    assert (x0 = x) as -> by congruence. assert (y0 = y) as -> by congruence.
    split; [intros _|eauto]. apply Hok. eauto.
Qed.

(** ** Attacking a board *)

Lemma inGrid_test b x y :
  (x <? 0) || (y <? 0) || (x >=? boardSize b) || (y >=? boardSize b) = false
  <-> inGrid b x y.
Proof. unfold inGrid. rewrite !orb_false_iff. lia. Qed.

Lemma attack_outside b x y :
  ~ inGrid b x y -> Board.attack (x, y) b = (inl (AttackOutOfBounds x y), b).
Proof.
  intros Hout. unfold Board.attack. unfoldM.
  destruct (_ || _) eqn:E; [done|]. by apply inGrid_test in E.
Qed.

Lemma attack_inside b x y c :
  inGrid b x y -> cellAt b x y = Some c ->
  Board.attack (x, y) b =
  if attacked c then (inl (AlreadyAttacked x y), b)
  else (inr (report c),
        setCells (<[x := <[y := setAttacked c]> (default ∅ (board b !! x))]> (board b)) b).
Proof.
  intros Hin Hc. unfold Board.attack. unfoldM.
  apply inGrid_test in Hin. rewrite Hin.
  unfold cellAt in Hc. destruct (board b !! x) as [line|]; [|done].
  simpl in *. rewrite Hc. destruct (attacked c); [done|]. by destruct c.
Qed.

Lemma attack_cells b x y c x' y' :
  cellAt b x y = Some c ->
  cellAt (setCells (<[x := <[y := setAttacked c]> (default ∅ (board b !! x))]> (board b)) b)
    x' y'
  = if decide (x' = x /\ y' = y) then Some (setAttacked c) else cellAt b x' y'.
Proof.
  intros Hc. pose proof (cellAt_line _ _ _ _ Hc) as [line Hline].
  rewrite Hline. simpl. by apply cellAt_mark.
Qed.

Lemma attack_boardOk b target r b' :
  boardOk b -> Board.attack target b = (r, b') -> boardOk b'.
Proof.
  destruct target as [x y]. intros Hok H.
  destruct (decide (inGrid b x y)) as [Hin|Hout].
  - destruct (proj2 (Hok x y) Hin) as [c Hc].
    rewrite (attack_inside _ _ _ _ Hin Hc) in H.
    destruct (attacked c); [by inversion H; subst|].
    inversion H; subst. intros x' y'. rewrite attack_cells by done.
    unfold inGrid. simpl. case_decide as Hd; [|apply Hok].
    destruct Hd as [-> ->]. split; [done|eauto].
  - rewrite attack_outside in H by done. by inversion H; subst.
Qed.

(** What a successful [settleShip] writes, for a size that is an odd
    number: the [k]-th cell of the ship, counted from its first cell along
    the axis, carries the ship's id and the board coordinate of that cell
    along the axis. *)
Lemma settleShip_marks ship b b' s k :
  Board.settleShip ship b = (inr tt, b') ->
  ship_size ship = Some s -> Z.odd s = true -> 0 <= k < s ->
  let p := centre (ship_orientation ship) (ship_position ship) - (s - 1) / 2 + k in
  cellAt b'
    (match ship_orientation ship with HORIZONTAL => (ship_position ship).1 | VERTICAL => p end)
    (match ship_orientation ship with HORIZONTAL => p | VERTICAL => (ship_position ship).2 end)
  = Some (ShipBoardCell (ship_id ship) p false).
Proof.
  intros Hrun Hsize Hodd Hk p.
  apply settleShip_cases in Hrun as (_ & _ & _ & _ & Hcells).
  rewrite Hcells. unfold marked.
  assert (Hin : Some p ∈ shipRun ship).
  { unfold shipRun, run. rewrite Hsize, Hodd. apply list_elem_of_fmap_2.
    apply elem_of_seqZ. unfold p. lia. }
  rewrite (written_unique _ _ _ _ _ _ (Some p)); [done|done| | |].
  - by destruct (ship_orientation ship).
  - by destruct (ship_orientation ship).
  - intros q _. destruct (ship_orientation ship); simpl; congruence.
Qed.

(** Where the two bounds tests of [settleShip] do report a ship that leaves
    the grid: for a size that is a positive odd number, whenever the anchor
    or a cell of the run is outside the grid, unless the ship stands upright
    in column [boardSize]. *)
Lemma settleShip_outside_reported ship b s :
  ship_size ship = Some s -> Z.odd s = true -> 0 < s ->
  (~ inGrid b (ship_position ship).1 (ship_position ship).2 \/
   exists k, 0 <= k < s /\
     let p := centre (ship_orientation ship) (ship_position ship) - (s - 1) / 2 + k in
     ~ 0 <= p < boardSize b) ->
  ~ (ship_orientation ship = VERTICAL /\ (ship_position ship).2 = boardSize b) ->
  exists e, Board.settleShip ship b = (inl e, b) /\ isOutOfBounds e = true.
Proof.
  intros Hsize Hodd Hpos Hout Hcol.
  rewrite settleShip_unfold. unfold bind, get.
  destruct (anchorOut b (ship_position ship)) eqn:Ea; [by eexists|].
  assert (Hext : extentOut (centre (ship_orientation ship) (ship_position ship))
                   (ship_size ship) (boardSize b) = true).
  { rewrite Hsize. simpl. apply orb_true_iff.
    pose proof (Z.div_mod (s - 1) 2 ltac:(lia)) as Hdiv.
    assert (Hrem : (s - 1) mod 2 = 0).
    { rewrite Z.odd_spec in Hodd. destruct Hodd as [m ->].
      replace (2 * m + 1 - 1) with (m * 2) by lia. apply Z.mod_mul. lia. }
    unfold anchorOut in Ea. rewrite !orb_false_iff in Ea.
    destruct (ship_position ship) as [x y]. simpl in *.
    destruct (ship_orientation ship) eqn:Eo; unfold centre in *; simpl in *.
    - destruct Hout as [Hanchor|(k & Hk & Hp)]; [unfold inGrid in Hanchor|]; lia.
    - assert (y <> boardSize b) by (intros ->; by apply Hcol).
      destruct Hout as [Hanchor|(k & Hk & Hp)]; [unfold inGrid in Hanchor|]; lia. }
  rewrite Hext. by eexists.
Qed.

(** ** Claims about the board *)

(** C8.  A settle attempt that fails, whatever the failure, leaves the board
    exactly as it was: no cell is turned into a ship cell and no cell is
    modified. *)
Theorem settle_failure_keeps_board (ship : ShipPiece) (b b' : BattleShipBoard) (e : Failure) :
  Board.settleShip ship b = (inl e, b') -> b' = b.
Proof. intros H. apply settleShip_cases in H. by destruct H. Qed.

Lemma settle_failure_keeps_board_witness :
  Board.settleShip (newShipPiece 1 (Some 3) VERTICAL (1, 5)) boardWithShip
    = (inl (AlreadyOccupied 1 (Some 3)),
       (Board.settleShip (newShipPiece 1 (Some 3) VERTICAL (1, 5)) boardWithShip).2)
  /\ (Board.settleShip (newShipPiece 1 (Some 3) VERTICAL (1, 5)) boardWithShip).2
     = boardWithShip.
Proof.
  split; [vm_compute; reflexivity|].
  apply (settle_failure_keeps_board (newShipPiece 1 (Some 3) VERTICAL (1, 5))
           boardWithShip _ (AlreadyOccupied 1 (Some 3))).
  vm_compute. reflexivity.
Defined.

(** C7.  On a board of the game, [attack] fails with the out-of-bounds error
    exactly for a target outside the grid and with the already-attacked
    error exactly for a target in the grid whose cell is flagged; a failure
    leaves the board alone and is one of these two.  Otherwise the cell gets
    its flag and the call returns nothing for water and the cell's ship id
    and part for a ship.  Attacking a position of the grid again right after
    fails with the already-attacked error and changes nothing. *)
Theorem board_attack_outcomes (b : BattleShipBoard) (x y : Z) :
  boardOk b ->
  ((Board.attack (x, y) b).1 = inl (AttackOutOfBounds x y) <-> ~ inGrid b x y) /\
  ((Board.attack (x, y) b).1 = inl (AlreadyAttacked x y)
     <-> inGrid b x y /\ exists c, cellAt b x y = Some c /\ attacked c = true) /\
  (forall e, (Board.attack (x, y) b).1 = inl e ->
     (Board.attack (x, y) b).2 = b /\
     (e = AttackOutOfBounds x y \/ e = AlreadyAttacked x y)) /\
  (forall c, inGrid b x y -> cellAt b x y = Some c -> attacked c = false ->
     (Board.attack (x, y) b).1 = inr (report c) /\
     attacked (setAttacked c) = true /\
     forall x' y',
       cellAt (Board.attack (x, y) b).2 x' y'
       = if decide (x' = x /\ y' = y) then Some (setAttacked c) else cellAt b x' y') /\
  (inGrid b x y ->
     Board.attack (x, y) (Board.attack (x, y) b).2
     = (inl (AlreadyAttacked x y), (Board.attack (x, y) b).2)).
Proof.
  intros Hok.
  destruct (decide (inGrid b x y)) as [Hin|Hout].
  - destruct (proj2 (Hok x y) Hin) as [c Hc].
    rewrite (attack_inside _ _ _ _ Hin Hc).
    destruct (attacked c) eqn:Ea; cbn [fst snd].
    + split; [|split; [|split; [|split]]].
      * split; [done|tauto].
      * split; [eauto|done].
      * intros e [= <-]. auto.
      * intros c' _ Hc' Ha. congruence.
      * intros _. by rewrite (attack_inside _ _ _ _ Hin Hc), Ea.
    + split; [|split; [|split; [|split]]].
      * split; [done|tauto].
      * split; [done|]. intros (_ & c' & Hc' & Ha). congruence.
      * done.
      * intros c' _ Hc' _. assert (c' = c) as -> by congruence.
        split; [done|]. split; [by destruct c|].
        intros x' y'. by apply attack_cells.
      * intros _.
        set (b1 := setCells _ b).
        assert (Hc1 : cellAt b1 x y = Some (setAttacked c)).
        { unfold b1. rewrite attack_cells by done. by rewrite decide_True. }
        rewrite (attack_inside b1 x y (setAttacked c)); [|done|done].
        by destruct c.
  - rewrite attack_outside by done. cbn [fst snd].
    split; [|split; [|split; [|split]]].
    + done.
    + split; [done|tauto].
    + intros e [= <-]. auto.
    + intros c Hin. done.
    + done.
Qed.

Lemma board_attack_outcomes_witness :
  boardOk boardWithShip /\
  (Board.attack (0, 5) boardWithShip).1 = inr (Some (0, 5)) /\
  Board.attack (0, 5) (Board.attack (0, 5) boardWithShip).2
  = (inl (AlreadyAttacked 0 5), (Board.attack (0, 5) boardWithShip).2).
Proof.
  assert (Hok : boardOk boardWithShip).
  { eapply settleShip_boardOk; [apply (newBoard_ok 10)|]. apply surjective_pairing. }
  split; [exact Hok|].
  destruct (board_attack_outcomes boardWithShip 0 5 Hok) as (_ & _ & _ & Hhit & Htwice).
  split.
  - apply (Hhit (ShipBoardCell 0 5 false)); [vm_compute; intuition congruence| |];
      vm_compute; reflexivity.
  - apply Htwice. vm_compute. intuition congruence.
Defined.

(** C3, as the code has it.  A three-long ship settled around column 5 of
    line 0 covers columns 4, 5 and 6, and each of these cells carries the
    ship's id with its own column, 4, 5 and 6, as the part: the board
    coordinate along the ship's axis, not the index 0, 1, 2 along the ship. *)
Theorem settle_part_is_coordinate :
  Board.settleShip (newShipPiece 0 (Some 3) HORIZONTAL (0, 5)) (newBoard 10)
    = (inr tt, boardWithShip) /\
  cellAt boardWithShip 0 4 = Some (ShipBoardCell 0 4 false) /\
  cellAt boardWithShip 0 5 = Some (ShipBoardCell 0 5 false) /\
  cellAt boardWithShip 0 6 = Some (ShipBoardCell 0 6 false).
Proof. repeat split; vm_compute; reflexivity. Qed.

(** C4, as the code has it.  A ship of size 1 standing upright with its
    anchor in column [boardSize] passes both bounds tests; the checking loop
    then reads a cell that does not exist, and the failure is the engine's
    [TypeError], not an out-of-bounds error. *)
Theorem settle_column_boardSize_not_reported :
  Board.settleShip (newShipPiece 0 (Some 1) VERTICAL (0, 10)) (newBoard 10)
    = (inl TypeError, newBoard 10) /\
  ~ inGrid (newBoard 10) 0 10 /\
  isOutOfBounds TypeError = false.
Proof.
  split; [vm_compute; reflexivity|]. split; [|reflexivity].
  unfold inGrid. simpl. lia.
Qed.

(** ** Damage *)

Lemma flagged_insert l i :
  l !! i = Some false -> flagged (<[i := true]> l) = flagged l + 1.
Proof.
  intros Hi. unfold flagged.
  rewrite <- (take_drop_middle l i false Hi) at 2.
  rewrite insert_take_drop by (by eapply lookup_lt_Some).
  rewrite !filter_app, !filter_cons, !length_app.
  rewrite decide_True by done. rewrite decide_False by done. simpl. lia.
Qed.

Lemma flagged_lt l i : l !! i = Some false -> flagged l < Z.of_nat (length l).
Proof.
  intros Hi. unfold flagged.
  assert (length (filter (fun v => v = true) l) < length l)%nat; [|lia].
  eapply length_filter_lt; [by eapply list_elem_of_lookup_2|done].
Qed.

Lemma flagged_replicate n : flagged (replicate n false) = 0.
Proof.
  unfold flagged. induction n as [|n IH]; [done|].
  simpl. rewrite filter_cons, decide_False by done. exact IH.
Qed.

Lemma count_insert {A} (P : A -> Prop) `{!forall x, Decision (P x)} (l : list A) i x y :
  l !! i = Some x -> ~ P x ->
  length (filter P (<[i := y]> l))
  = (length (filter P l) + (if decide (P y) then 1 else 0))%nat.
Proof.
  intros Hi Hx.
  rewrite <- (take_drop_middle l i x Hi) at 2.
  rewrite insert_take_drop by (by eapply lookup_lt_Some).
  rewrite !filter_app, !filter_cons, !length_app.
  rewrite (decide_False (P:=P x)) by done.
  destruct (decide (P y)); simpl; lia.
Qed.

Lemma assignFlag_inside l i v :
  (i < length l)%nat -> assignFlag l i v = <[i := v]> l.
Proof. intros H. unfold assignFlag. by rewrite decide_True. Qed.

Lemma assignFlag_lookup l i v : assignFlag l i v !! i = Some v.
Proof.
  unfold assignFlag. case_decide as Hi.
  - by apply list_lookup_insert_eq.
  - rewrite lookup_app_r by lia. rewrite lookup_app_r; rewrite length_replicate; [|lia].
    by replace (i - length l - (i - length l))%nat with 0%nat by lia.
Qed.

(** [receiveDamage] as a function of the player it is called on. *)
Lemma receiveDamage_eq shipId part p :
  Player.receiveDamage shipId part p =
  if (shipId <? 0) || (shipId >=? Z.of_nat (length (ships p)))
  then (inl (InvalidShipId shipId), p)
  else
    match ships p !! Z.to_nat shipId with
    | None => (inl TypeError, p)
    | Some ship =>
        if (part <? 0) || geSize part (ship_size ship) then (inl InvalidPart, p)
        else if default false (ship_damaged ship !! Z.to_nat part)
        then (inl (AlreadyDamaged part shipId), p)
        else
          let ship' := damagePart (Z.to_nat part) ship in
          if eqSize (ship_damage ship + 1) (ship_size ship)
          then (inr true,
                setShipCount (shipCount p - 1) (setShip (Z.to_nat shipId) ship' p))
          else (inr false, setShip (Z.to_nat shipId) ship' p)
    end.
Proof.
  unfold Player.receiveDamage. unfoldM.
  destruct (_ || _); [done|].
  destruct (ships p !! Z.to_nat shipId) as [ship|]; [|done].
  destruct (_ || _); [done|].
  destruct (default false _); [done|].
  by destruct (eqSize _ _).
Qed.

Lemma receiveDamage_valid shipId part p ship n :
  0 <= shipId -> ships p !! Z.to_nat shipId = Some ship ->
  ship_size ship = Some n -> 0 <= part < n ->
  default false (ship_damaged ship !! Z.to_nat part) = false ->
  Player.receiveDamage shipId part p =
  (inr (ship_damage ship + 1 =? n),
   setShipCount (if ship_damage ship + 1 =? n then shipCount p - 1 else shipCount p)
     (setShip (Z.to_nat shipId) (damagePart (Z.to_nat part) ship) p)).
Proof.
  intros Hid Hship Hsize Hpart Hfree. rewrite receiveDamage_eq.
  pose proof (lookup_lt_Some _ _ _ Hship) as Hlt.
  rewrite (proj2 (orb_false_iff _ _)) by (split; lia).
  rewrite Hship, Hsize. simpl.
  rewrite (proj2 (orb_false_iff _ _)) by (split; lia).
  rewrite Hfree. destruct (ship_damage ship + 1 =? n); [done|].
  by destruct p.
Qed.

(** One call on a player whose counters are in order: a failure changes
    nothing; a call that sinks the ship takes one off the counter; a call
    that does not leaves the counter, which then counts at least the ship
    just hit. *)
Lemma receiveDamage_count shipId part p r p' :
  playerOk p -> Player.receiveDamage shipId part p = (r, p') ->
  playerOk p' /\
  match r with
  | inl _ => p' = p
  | inr true => shipCount p' = shipCount p - 1
  | inr false => shipCount p' = shipCount p /\ 1 <= shipCount p
  end.
Proof.
  intros [Hships Hcount]. rewrite receiveDamage_eq.
  destruct (_ || _) eqn:Eid; [by intros [= <- <-]|].
  destruct (ships p !! Z.to_nat shipId) as [ship|] eqn:Eship; [|by intros [= <- <-]].
  destruct ((part <? 0) || geSize part (ship_size ship)) eqn:Epart;
    [by intros [= <- <-]|].
  destruct (default false _) eqn:Efree; [by intros [= <- <-]|].
  apply orb_false_iff in Epart as [Hpos Hge].
  pose proof (proj1 (Forall_lookup _ _) Hships _ _ Eship) as Hok.
  set (i := Z.to_nat shipId) in *. set (ship' := damagePart (Z.to_nat part) ship).
  assert (Hnot : ~ sunk ship = true).
  { unfold sunk. unfold shipOk in Hok. destruct (ship_size ship) as [n|]; [|done].
    destruct Hok as [Hlen Hdam]. simpl in Hge.
    assert (Hlook : ship_damaged ship !! Z.to_nat part = Some false).
    { destruct (ship_damaged ship !! Z.to_nat part) as [[]|] eqn:E; try done.
      apply lookup_ge_None in E. lia. }
    apply flagged_lt in Hlook. rewrite andb_true_iff. lia. }
  assert (Hok' : shipOk ship').
  { unfold shipOk in *. simpl. destruct (ship_size ship) as [n|]; [|done].
    destruct Hok as [Hlen Hdam]. simpl in Hge.
    assert (Hlook : ship_damaged ship !! Z.to_nat part = Some false).
    { destruct (ship_damaged ship !! Z.to_nat part) as [[]|] eqn:E; try done.
      apply lookup_ge_None in E. lia. }
    rewrite assignFlag_inside by (by eapply lookup_lt_Some).
    rewrite length_insert, flagged_insert by done. split; [done|lia]. }
  assert (Hsunk' : sunk ship' = eqSize (ship_damage ship + 1) (ship_size ship)).
  { unfold sunk, ship'. simpl. destruct (ship_size ship) as [n|]; [|done].
    simpl in *. replace (0 <? n) with true by lia. done. }
  assert (Hall' : Forall shipOk (<[i := ship']> (ships p))).
  { by apply Forall_insert. }
  pose proof (count_insert (fun s => sunk s = true) (ships p) i ship ship' Eship Hnot)
    as Hfilter.
  destruct (eqSize (ship_damage ship + 1) (ship_size ship)) eqn:Ed; intros [= <- <-].
  - split; [|done]. split; [done|]. simpl.
    rewrite length_insert, Hfilter, decide_True by done. lia.
  - assert (Hlive : (length (filter (fun s => sunk s = true) (ships p))
                     < length (ships p))%nat).
    { eapply length_filter_lt; [by eapply list_elem_of_lookup_2|done]. }
    split; [|simpl; lia]. split; [done|]. simpl.
    rewrite length_insert, Hfilter, decide_False by congruence. lia.
Qed.

Lemma damageAll_in_turn shipId parts :
  forall p ship n,
    0 <= shipId -> ships p !! Z.to_nat shipId = Some ship ->
    ship_size ship = Some n ->
    NoDup parts ->
    Forall (fun q => 0 <= q < n /\ ship_damaged ship !! Z.to_nat q = Some false) parts ->
    ship_damage ship + Z.of_nat (length parts) = n ->
    parts <> [] ->
    damageAll shipId parts p
    = replicate (length parts - 1) (inr false, shipCount p)
      ++ [(inr true, shipCount p - 1)].
Proof.
  induction parts as [|q rest IH]; intros p ship n Hid Hship Hsize Hnd Hfree Hsum Hne;
    [done|].
  apply NoDup_cons in Hnd as [Hq Hnd]. apply Forall_cons in Hfree as [[Hq0 Hqf] Hfree].
  pose proof (lookup_lt_Some _ _ _ Hqf) as Hqlt.
  pose proof (lookup_lt_Some _ _ _ Hship) as Hilt.
  simpl damageAll.
  rewrite (receiveDamage_valid shipId q p ship n Hid Hship Hsize).
  2:{ done. }
  2:{ by rewrite Hqf. }
  destruct rest as [|q' rest'].
  - simpl in *. replace (ship_damage ship + 1 =? n) with true by lia. done.
  - replace (ship_damage ship + 1 =? n) with false by (simpl in Hsum; lia).
    set (ship' := damagePart (Z.to_nat q) ship).
    set (p' := setShipCount (shipCount p) (setShip (Z.to_nat shipId) ship' p)).
    rewrite (IH p' ship' n); try done.
    + simpl. by rewrite Nat.sub_0_r.
    + simpl. by apply list_lookup_insert_eq.
    + apply Forall_forall. intros z Hz.
      pose proof (proj1 (Forall_forall _ _) Hfree z Hz) as [Hzr Hzf].
      split; [done|]. simpl.
      rewrite assignFlag_inside by done.
      rewrite list_lookup_insert_ne; [done|].
      intros Heq. apply Hq. assert (q = z) as -> by lia. done.
    + simpl in *. lia.
Qed.

(** C6.  [receiveDamage] rejects a ship id outside the roster, a part at or
    past the ship's size and a part already marked, each with its own error
    and without touching the player.  Any other part of the ship is marked
    and the ship's damage counter goes up by one; the call reports the ship
    destroyed, and takes one off the owner's counter of live ships, exactly
    when the damage counter reaches the size.  For a fresh ship of size [n],
    [n] calls on its [n] parts taken in any order without repeats report
    false [n - 1] times, then true, and only the last call changes the
    counter of live ships. *)
Theorem receiveDamage_outcomes (p : BattleShipPlayer) (shipId : Z) :
  (forall part,
     shipId < 0 \/ Z.of_nat (length (ships p)) <= shipId ->
     Player.receiveDamage shipId part p = (inl (InvalidShipId shipId), p)) /\
  (forall ship n,
     0 <= shipId -> ships p !! Z.to_nat shipId = Some ship -> ship_size ship = Some n ->
     (forall part,
        n <= part -> Player.receiveDamage shipId part p = (inl InvalidPart, p)) /\
     (forall part,
        0 <= part < n -> default false (ship_damaged ship !! Z.to_nat part) = true ->
        Player.receiveDamage shipId part p = (inl (AlreadyDamaged part shipId), p)) /\
     (forall part,
        0 <= part < n -> default false (ship_damaged ship !! Z.to_nat part) = false ->
        exists p',
          Player.receiveDamage shipId part p = (inr (ship_damage ship + 1 =? n), p') /\
          ships p' = <[Z.to_nat shipId := damagePart (Z.to_nat part) ship]> (ships p) /\
          ship_damaged (damagePart (Z.to_nat part) ship) !! Z.to_nat part = Some true /\
          ship_damage (damagePart (Z.to_nat part) ship) = ship_damage ship + 1 /\
          shipCount p'
          = if ship_damage ship + 1 =? n then shipCount p - 1 else shipCount p) /\
     (forall parts,
        0 < n ->
        ship_damaged ship = replicate (Z.to_nat n) false -> ship_damage ship = 0 ->
        NoDup parts -> Forall (fun q => 0 <= q < n) parts ->
        length parts = Z.to_nat n ->
        damageAll shipId parts p
        = replicate (Z.to_nat n - 1) (inr false, shipCount p)
          ++ [(inr true, shipCount p - 1)])).
Proof.
  split.
  - intros part Hid. rewrite receiveDamage_eq.
    replace ((shipId <? 0) || (shipId >=? Z.of_nat (length (ships p)))) with true; [done|].
    symmetry. apply orb_true_iff. lia.
  - intros ship n Hid Hship Hsize.
    pose proof (lookup_lt_Some _ _ _ Hship) as Hlt.
    assert (Hidok : (shipId <? 0) || (shipId >=? Z.of_nat (length (ships p))) = false).
    { apply orb_false_iff. lia. }
    split; [|split; [|split]].
    + intros part Hpart. rewrite receiveDamage_eq, Hidok, Hship, Hsize. simpl.
      replace ((part <? 0) || (part >=? n)) with true; [done|].
      symmetry. apply orb_true_iff. lia.
    + intros part Hpart Hmarked. rewrite receiveDamage_eq, Hidok, Hship, Hsize. simpl.
      rewrite (proj2 (orb_false_iff _ _)) by (split; lia). by rewrite Hmarked.
    + intros part Hpart Hfree. eexists. split; [by eapply receiveDamage_valid|].
      simpl. split; [done|]. split; [apply assignFlag_lookup|]. done.
    + intros parts Hn Hfresh Hzero Hnd Hrange Hlen.
      rewrite (damageAll_in_turn shipId parts p ship n); try done.
      * by rewrite Hlen.
      * eapply Forall_impl; [exact Hrange|]. intros q Hq. simpl in Hq.
        split; [done|]. rewrite Hfresh. apply lookup_replicate_2. lia.
      * lia.
      * intros ->. simpl in Hlen. lia.
Qed.

Lemma receiveDamage_outcomes_witness :
  damageAll 0 [2; 0; 1] playerWithShip = [(inr false, 1); (inr false, 1); (inr true, 0)]
  /\ Player.receiveDamage 0 3 playerWithShip = (inl InvalidPart, playerWithShip)
  /\ Player.receiveDamage 1 0 playerWithShip = (inl (InvalidShipId 1), playerWithShip).
Proof.
  destruct (receiveDamage_outcomes playerWithShip 0) as [_ H0].
  destruct (H0 (newShipPiece 0 (Some 3) HORIZONTAL (0, 1)) 3) as (Hpart & _ & _ & Hall);
    [lia|reflexivity|reflexivity|].
  split; [|split].
  - apply (Hall [2; 0; 1]); [lia|reflexivity|reflexivity| | |reflexivity].
    + apply (bool_decide_unpack (NoDup [2; 0; 1])). vm_compute. exact I.
    + repeat constructor; lia.
  - apply Hpart. lia.
  - apply (proj1 (receiveDamage_outcomes playerWithShip 1)). right. simpl. lia.
Defined.

(** ** The game's counters *)

Lemma Player_settleShip_eq self size o position g :
  Player.settleShip self size o position g =
  let this := getPlayer self g in
  let ship := newShipPiece (shipCount this) size o position in
  match Board.settleShip ship (getBoard (shipBoard this) g) with
  | (inl e, b') => (inl e, setBoard (shipBoard this) b' g)
  | (inr _, b') =>
      (inr tt,
       setPlayer self (setShipCount (shipCount this + 1) (pushShip ship this))
         (setBoard (shipBoard this) b' g))
  end.
Proof.
  unfold Player.settleShip, onBoard, onPlayer. unfoldM.
  destruct (Board.settleShip _ _) as [[e|[]] b']; [done|].
  by destruct self, (shipBoard _).
Qed.

Lemma Game_attack_eq attackerId target g :
  Game.attack attackerId target g =
  let attacker := if decide (attackerId = P1) then SeatP1 else SeatP2 in
  let pins := pinBoard (getPlayer attacker g) in
  match Board.attack target (getBoard pins g) with
  | (inl e, b') => (inl e, setBoard pins b' g)
  | (inr None, b') => (inr false, setBoard pins b' g)
  | (inr (Some (shipId, part)), b') =>
      let g1 := setBoard pins b' g in
      match Player.receiveDamage shipId part (getPlayer (defender attackerId) g1) with
      | (inl e, p') => (inl e, setPlayer (defender attackerId) p' g1)
      | (inr _, p') => (inr (shipCount p' =? 0), setPlayer (defender attackerId) p' g1)
      end
  end.
Proof.
  unfold Game.attack, defender, Player.attack, onBoard, onPlayer.
  destruct (decide (attackerId = P1)) as [Heq|Hne]; unfoldM;
    (destruct (Board.attack _ _) as [[e|[[shipId part]|]] b']; [done| |done]);
    by destruct (Player.receiveDamage _ _ _) as [[e'|d] p'].
Qed.

Lemma getPlayer_setBoard s r b g : getPlayer s (setBoard r b g) = getPlayer s g.
Proof. by destruct s, r. Qed.

Lemma gameOk_setBoard r b g : gameOk (setBoard r b g) <-> gameOk g.
Proof. by destruct r. Qed.

Lemma gameOk_setPlayer s p g : gameOk g -> playerOk p -> gameOk (setPlayer s p g).
Proof. intros [H1 H2] Hp. by destruct s. Qed.

Lemma gameOk_getPlayer s g : gameOk g -> playerOk (getPlayer s g).
Proof. intros [H1 H2]. by destruct s. Qed.

Lemma newShipPiece_ok idx size o position : shipOk (newShipPiece idx size o position).
Proof.
  unfold shipOk. simpl. destruct size as [n|]; [|done]. simpl.
  by rewrite length_replicate, flagged_replicate.
Qed.

Lemma newShipPiece_afloat idx size o position :
  sunk (newShipPiece idx size o position) = false.
Proof.
  unfold sunk. simpl. destruct size as [[|n|n]|]; done.
Qed.

Lemma pushShip_ok ship p :
  playerOk p -> shipOk ship -> sunk ship = false ->
  playerOk (setShipCount (shipCount p + 1) (pushShip ship p)).
Proof.
  intros [Hall Hcount] Hship Hsunk. split; simpl.
  - apply Forall_app. split; [done|]. by apply Forall_singleton.
  - rewrite filter_app, !length_app, filter_cons, decide_False by congruence.
    simpl. lia.
Qed.

Lemma settleShip_gameOk player size o position g :
  gameOk g -> gameOk (Game.settleShip player size o position g).2.
Proof.
  intros Hok. unfold Game.settleShip, bind, get.
  destruct (decide _) as [Heq|Hne]; rewrite Player_settleShip_eq; cbn zeta;
    destruct (Board.settleShip _ _) as [[e|[]] b']; cbn [snd];
    try (by apply gameOk_setBoard);
    (apply gameOk_setPlayer; [by apply gameOk_setBoard|]);
    (apply pushShip_ok;
       [by apply gameOk_getPlayer|apply newShipPiece_ok|apply newShipPiece_afloat]).
Qed.

Lemma attack_gameOk attackerId target g :
  gameOk g -> gameOk (Game.attack attackerId target g).2.
Proof.
  intros Hok. rewrite Game_attack_eq. cbn zeta.
  destruct (Board.attack _ _) as [[e|[[shipId part]|]] b']; cbn [snd];
    try (by apply gameOk_setBoard).
  destruct (Player.receiveDamage _ _ _) as [r p'] eqn:E.
  apply receiveDamage_count in E as [Hp' _].
  2:{ apply gameOk_getPlayer. by apply gameOk_setBoard. }
  destruct r; cbn [snd]; (apply gameOk_setPlayer; [by apply gameOk_setBoard|done]).
Qed.

Lemma newGame_ok n : gameOk (newGame n).
Proof. split; (split; [constructor|done]). Qed.

Lemma reachable_ok g : reachable g -> gameOk g.
Proof.
  induction 1 as [n|g player size o position _ IH|g attackerId target _ IH].
  - apply newGame_ok.
  - by apply settleShip_gameOk.
  - by apply attack_gameOk.
Qed.

(** C5.  Player 2 has settled one ship of size 3 at (0, 5) on a board of
    10, which takes the cells (0, 4), (0, 5) and (0, 6), none attacked yet,
    and the counter of live ships of player 2 is 1.  Player 1's attack on
    any of the three cells does not return: [attack] throws the invalid
    part error of [receiveDamage], because the cell reports its board
    coordinate (4, 5 or 6) as the part and the ship has 3 parts.  The counter
    is still 1 after the call, so it made no step from 1 to 0, and yet the
    call did not return false; the cell is left flagged as attacked, so the
    ship takes no damage from it later either. *)
Theorem first_hit_on_ship_throws :
  reachable gameShipAtFive /\
  shipCount (getPlayer (defender P1) gameShipAtFive) = 1 /\
  Forall (fun y =>
            cellAt (boardP2 gameShipAtFive) 0 y = Some (ShipBoardCell 0 y false) /\
            (Game.attack P1 (0, y) gameShipAtFive).1 = inl InvalidPart /\
            shipCount (getPlayer (defender P1)
                         (Game.attack P1 (0, y) gameShipAtFive).2) = 1 /\
            cellAt (boardP2 (Game.attack P1 (0, y) gameShipAtFive).2) 0 y
            = Some (ShipBoardCell 0 y true) /\
            (Game.attack P1 (0, y) (Game.attack P1 (0, y) gameShipAtFive).2).1
            = inl (AlreadyAttacked 0 y))
         [4; 5; 6].
Proof.
  split; [apply reach_settle, reach_new|].
  split; [by vm_compute|].
  repeat constructor; by vm_compute.
Qed.

(** On a game reached through its operations, an attack that returns
    returns true exactly when the attacked player's counter of live ships
    was 1 before the call and is 0 after it; in particular an attack that
    returns after hitting water returns false. *)
Theorem attack_true_iff_last_ship_sunk (g g' : BattleShipGame) (attackerId : PLAYER)
    (target : BoardPosition) (won : bool) :
  reachable g ->
  Game.attack attackerId target g = (inr won, g') ->
  (won = true <->
     shipCount (getPlayer (defender attackerId) g) = 1 /\
     shipCount (getPlayer (defender attackerId) g') = 0) /\
  (forall a,
     cellAt (getBoard (pinBoard (getPlayer (if decide (attackerId = P1)
                                            then SeatP1 else SeatP2) g)) g)
            target.1 target.2
     = Some (WaterBoardCell a) ->
     won = false).
Proof.
  intros Hreach. apply reachable_ok in Hreach.
  rewrite Game_attack_eq. cbn zeta.
  set (pins := pinBoard _).
  destruct (Board.attack target (getBoard pins g)) as [[e|[[shipId part]|]] b'] eqn:Eb;
    [done| |].
  - set (g1 := setBoard pins b' g).
    destruct (Player.receiveDamage _ _ _) as [[e|d] p'] eqn:Er; [done|].
    intros [= <- <-].
    apply receiveDamage_count in Er.
    2:{ apply gameOk_getPlayer. by apply gameOk_setBoard. }
    destruct Er as [_ Hcount]. unfold g1 in Hcount.
    rewrite getPlayer_setBoard in Hcount.
    assert (Hafter : shipCount (getPlayer (defender attackerId)
                                  (setPlayer (defender attackerId) p' g1)) = shipCount p').
    { by destruct (defender attackerId). }
    rewrite Hafter. split.
    + destruct d; rewrite Z.eqb_eq; lia.
    + intros a Hwater. exfalso.
      destruct target as [x y]. simpl in Hwater.
      unfold Board.attack in Eb. unfoldM.
      destruct (_ || _); [done|].
      unfold cellAt in Hwater.
      destruct (board (getBoard pins g) !! x) as [line|]; [|done]. simpl in Hwater.
      rewrite Hwater in Eb. simpl in Eb. by destruct a.
  - intros [= <- <-]. rewrite getPlayer_setBoard. split; [|done].
    split; [done|]. intros [H1 H0]. lia.
Qed.

Lemma attack_true_iff_last_ship_sunk_witness :
  reachable gameLastShip /\
  Game.attack P1 (0, 0) gameLastShip = (inr true, (Game.attack P1 (0, 0) gameLastShip).2) /\
  shipCount (getPlayer (defender P1) gameLastShip) = 1 /\
  shipCount (getPlayer (defender P1) (Game.attack P1 (0, 0) gameLastShip).2) = 0.
Proof.
  assert (Hreach : reachable gameLastShip) by apply reach_settle, reach_new.
  assert (Hrun : Game.attack P1 (0, 0) gameLastShip
                 = (inr true, (Game.attack P1 (0, 0) gameLastShip).2))
    by (vm_compute; reflexivity).
  split; [exact Hreach|]. split; [exact Hrun|].
  apply (attack_true_iff_last_ship_sunk gameLastShip _ P1 (0, 0) true Hreach Hrun).
  reflexivity.
Defined.

(** ** The rules *)

Lemma setBoard_getBoard r g : setBoard r (getBoard r g) g = g.
Proof. by destruct r, g. Qed.

(** A failed [Game.settleShip] leaves the whole game as it was. *)
Lemma Game_settleShip_failure player size o position g e g' :
  Game.settleShip player size o position g = (inl e, g') -> g' = g.
Proof.
  unfold Game.settleShip, bind, get.
  destruct (decide _) as [Heq|Hne]; rewrite Player_settleShip_eq; cbn zeta;
    (destruct (Board.settleShip _ _) as [[e'|[]] b'] eqn:Eb; [|done]);
    intros [= <- <-]; apply settleShip_cases in Eb as [-> _];
    apply setBoard_getBoard.
Qed.

Lemma afterSettle_phase s :
  phase (Rules.afterSettle s).2 = 0%nat \/ phase (Rules.afterSettle s).2 = 1%nat.
Proof.
  unfold Rules.afterSettle, nextShipSize.
  repeat (case_decide || case_match); simpl; auto.
Qed.

Lemma processUnselect_phase w :
  phase (Rules.processUnselect w).2.1 = phase w.1 \/
  phase (Rules.processUnselect w).2.1 = S (phase w.1).
Proof.
  destruct w as [[s|s|s] g]; unfold Rules.processUnselect; [| |by left].
  - destruct (sc_selected s); [|by left].
    destruct (sc_pos s) as [pos|]; [|by left].
    destruct (Game.settleShip _ _ _ _ _) as [[e|u] g']; [by left|].
    pose proof (afterSettle_phase (sc_setSelected false s)) as Hp.
    destruct (Rules.afterSettle _) as [cmds st']. simpl in *.
    destruct Hp as [-> | ->]; auto.
  - destruct (bt_selected s); [|by left].
    destruct (bt_pos s) as [pos|]; [|by left].
    destruct (Game.attack _ _ _) as [[e|[]] g']; simpl; auto.
Qed.

Lemma apply_phase_step ev w :
  phase (Rules.apply ev w).2.1 = phase w.1 \/
  phase (Rules.apply ev w).2.1 = S (phase w.1).
Proof.
  unfold Rules.apply. destruct ev as [| |to loc|].
  - left. destruct w as [[s|s|s] g]; simpl; [destruct (sc_selected s)
                                             |destruct (bt_selected s)|]; done.
  - pose proof (processUnselect_phase w) as Hp.
    by destruct (Rules.processUnselect w) as [cmds w'].
  - left. destruct w as [[s|s|s] g]; simpl; [| |done].
    + destruct (decide (loc = SHIP_GRID)), (sc_selected s); done.
    + destruct (decide (loc = PIN_GRID)), (bt_selected s); done.
  - left. destruct w as [[s|s|s] g]; simpl; [destruct (sc_selected s)| |]; done.
Qed.

(** C9.  A step of the rules keeps the phase or moves it to the next one,
    crafting to battle and battle to game over; no sequence of events takes
    the state to an earlier phase; and in the game-over phase every event
    yields no command and no control and leaves rules state and game as they
    are. *)
Theorem phases_one_way :
  (forall ev w,
     phase (Rules.apply ev w).2.1 = phase w.1 \/
     phase (Rules.apply ev w).2.1 = S (phase w.1)) /\
  (forall events w, (phase w.1 <= phase (Rules.applyAll events w).2.1)%nat) /\
  (forall ev s g,
     Rules.apply ev (GAME_OVER s, g) = (([], []), (GAME_OVER s, g))).
Proof.
  split; [exact apply_phase_step|]. split.
  - induction events as [|ev rest IH]; intros w; [done|].
    simpl. destruct (Rules.apply ev w) as [[cmds ctl] w1] eqn:E1.
    destruct (Rules.applyAll rest w1) as [cmds' w2] eqn:E2.
    pose proof (apply_phase_step ev w) as Hstep. rewrite E1 in Hstep.
    pose proof (IH w1) as Hrest. rewrite E2 in Hrest. simpl in *. lia.
  - intros ev s g. by destruct ev.
Qed.

(** C10.  Unselecting a selected piece that has no position yet emits the
    one lay-down command of the phase and no control, clears [selected],
    keeps every other field of the rules state and leaves the game as it
    is. *)
Theorem unselect_without_position_lays_down (g : BattleShipGame) :
  (forall s,
     sc_selected s = true -> sc_pos s = None ->
     Rules.apply BSUnselectEvent (SHIP_CRAFTING s, g)
     = (([SettleShipCmd], []), (SHIP_CRAFTING (sc_setSelected false s), g)) /\
     sc_selected (sc_setSelected false s) = false /\
     sc_player (sc_setSelected false s) = sc_player s /\
     sc_shipSizeSequence (sc_setSelected false s) = sc_shipSizeSequence s /\
     sc_shipSizeIterator (sc_setSelected false s) = sc_shipSizeIterator s /\
     sc_orientation (sc_setSelected false s) = sc_orientation s /\
     sc_pos (sc_setSelected false s) = sc_pos s) /\
  (forall s,
     bt_selected s = true -> bt_pos s = None ->
     Rules.apply BSUnselectEvent (BATTLE s, g)
     = (([SettlePinCmd], []), (BATTLE (bt_setSelected false s), g)) /\
     bt_selected (bt_setSelected false s) = false /\
     bt_player (bt_setSelected false s) = bt_player s /\
     bt_pos (bt_setSelected false s) = bt_pos s).
Proof.
  split; intros s Hsel Hpos; (split; [|done]);
    unfold Rules.apply, Rules.processUnselect; simpl; rewrite Hsel, Hpos; simpl;
    [|done].
  case_decide as Hd; [|done]. destruct Hd as [H2 H1]. congruence.
Qed.

Lemma unselect_without_position_lays_down_witness :
  Rules.apply BSUnselectEvent
    (SHIP_CRAFTING (sc_setSelected true (newShipCraftState [Some 1; Some 3] P2)), newGame 10)
  = (([SettleShipCmd], []), (SHIP_CRAFTING (newShipCraftState [Some 1; Some 3] P2), newGame 10))
  /\
  Rules.apply BSUnselectEvent (BATTLE (bt_setSelected true newBattleState), newGame 10)
  = (([SettlePinCmd], []), (BATTLE newBattleState, newGame 10)).
Proof.
  destruct (unselect_without_position_lays_down (newGame 10)) as [Hcraft Hbattle].
  split.
  - apply (Hcraft (sc_setSelected true (newShipCraftState [Some 1; Some 3] P2))); reflexivity.
  - apply (Hbattle (bt_setSelected true newBattleState)); reflexivity.
Defined.

(** *** Scenarios on the default settings *)

(** C1, as stated, fails.  Player 1 holds a ship of size 3 over the last
    column; the settle attempt fails and one error command comes out, but
    the rules state is not what it was: [selected] is now false. *)
Lemma failed_settle_clears_selected :
  worldAtEdge.1
  = SHIP_CRAFTING {| sc_player := P1; sc_selected := true;
                     sc_shipSizeSequence := [Some 1; Some 1; Some 3; Some 3; Some 5];
                     sc_shipSizeIterator := 2;
                     sc_orientation := HORIZONTAL; sc_pos := Some (0, 9) |} /\
  Game.settleShip P1 (Some 3) HORIZONTAL (0, 9) worldAtEdge.2
  = (inl (SizeOutOfBounds 1 (Some 3)), worldAtEdge.2) /\
  (Rules.apply BSUnselectEvent worldAtEdge).1.1
  = [ErrorCmd (SettleError P1 (Some 3) HORIZONTAL (0, 9) (SizeOutOfBounds 1 (Some 3)))] /\
  (Rules.apply BSUnselectEvent worldAtEdge).2.1 <> worldAtEdge.1 /\
  sc_selected (craftingOf (Rules.apply BSUnselectEvent worldAtEdge).2.1) = false.
Proof.
  split; [vm_compute; reflexivity|]. split; [vm_compute; reflexivity|].
  split; [vm_compute; reflexivity|]. split; [|vm_compute; reflexivity].
  vm_compute. intros H. discriminate H.
Qed.

(** C1, amended.  In the crafting phase with a piece selected and a position
    pending, an unselect whose settle attempt fails emits exactly one error
    command carrying the player, the size, the orientation, the position and
    the failure, and no control; the game is left as it was, and the rules
    state is left as it was except that [selected] is now false: same
    phase, player, size cursor, orientation and position. *)
Theorem failed_settle_reports_and_unselects (s : ShipCraftState) (g g' : BattleShipGame)
    (pos : BoardPosition) (e : Failure) :
  sc_selected s = true ->
  sc_pos s = Some pos ->
  Game.settleShip (sc_player s) (mjoin (sc_shipSizeSequence s !! sc_shipSizeIterator s))
    (sc_orientation s) pos g = (inl e, g') ->
  Rules.apply BSUnselectEvent (SHIP_CRAFTING s, g)
  = (([ErrorCmd (SettleError (sc_player s)
                   (mjoin (sc_shipSizeSequence s !! sc_shipSizeIterator s))
                   (sc_orientation s) pos e)], []),
     (SHIP_CRAFTING (sc_setSelected false s), g)) /\
  sc_player (sc_setSelected false s) = sc_player s /\
  sc_shipSizeSequence (sc_setSelected false s) = sc_shipSizeSequence s /\
  sc_shipSizeIterator (sc_setSelected false s) = sc_shipSizeIterator s /\
  sc_orientation (sc_setSelected false s) = sc_orientation s /\
  sc_pos (sc_setSelected false s) = sc_pos s.
Proof.
  intros Hsel Hpos Hfail. split; [|done].
  pose proof (Game_settleShip_failure _ _ _ _ _ _ _ Hfail) as ->.
  unfold Rules.apply, Rules.processUnselect. simpl.
  rewrite Hsel, Hpos, Hfail. simpl.
  case_decide as Hd; [|done]. destruct Hd as [H2 H1]. congruence.
Qed.

Lemma failed_settle_reports_and_unselects_witness :
  Rules.apply BSUnselectEvent (SHIP_CRAFTING (craftingOf worldAtEdge.1), newGame 10)
  = (([ErrorCmd (SettleError P1 (Some 3) HORIZONTAL (0, 9)
                   (SizeOutOfBounds 0 (Some 3)))], []),
     (SHIP_CRAFTING (sc_setSelected false (craftingOf worldAtEdge.1)), newGame 10)).
Proof.
  apply (failed_settle_reports_and_unselects (craftingOf worldAtEdge.1)
           (newGame 10) (newGame 10) (0, 9) (SizeOutOfBounds 0 (Some 3)));
    vm_compute; reflexivity.
Defined.

(** C2, as the code has it.  With the default settings the sizes announced
    to player 1 are 1, 1, 3, 3, 5, each by the [MakeShipCmd] that precedes
    the commit, but the ships committed have sizes 1, 3, 3, 5 and, last, no
    size at all: every commit takes the element after the announced one.
    So the second commit settles a ship of size 3 while the latest
    [MakeShipCmd] announced size 1, and the fifth ship has an undefined
    size. *)
Theorem commit_takes_the_size_after_the_announced_one :
  Rules.init startWorld.1
  = Some (([MakeShipCmd (Some 1)], Rules.initInteraction), initialWorld.1) /\
  (Rules.applyAll (place (0, 0) ++ [BSSelectEvent; BSMoveEvent (2, 2) SHIP_GRID])
     initialWorld).1
  = [SelectShipCmd; MoveShipCmd (0, 0); SettleShipCmd; MakeShipCmd (Some 1);
     SelectShipCmd; MoveShipCmd (2, 2)] /\
  settledSizes (p1 (Rules.applyAll (place (0, 0) ++ place (2, 2)) initialWorld).2.2)
  = [Some 1; Some 3] /\
  announcedSizes
    (MakeShipCmd (Some 1)
     :: (Rules.applyAll
           (place (0, 0) ++ place (2, 2) ++ place (4, 4) ++ place (6, 6)
            ++ [BSSelectEvent; BSMoveEvent (8, 8) SHIP_GRID])
           initialWorld).1)
  = [Some 1; Some 1; Some 3; Some 3; Some 5] /\
  settledSizes
    (p1 (Rules.applyAll
           (place (0, 0) ++ place (2, 2) ++ place (4, 4) ++ place (6, 6)
            ++ place (8, 8))
           initialWorld).2.2)
  = [Some 1; Some 3; Some 3; Some 5; None].
Proof. repeat split; vm_compute; reflexivity. Qed.

(** * Further properties *)

(** ** The board *)

Lemma forEach_all_ok {S A} (xs : list A) (body : A -> M S unit) s :
  (forall x, x ∈ xs -> body x s = (inr tt, s)) -> forEach xs body s = (inr tt, s).
Proof.
  induction xs as [|x xs IH]; intros Hall; [done|].
  simpl. unfold bind. rewrite Hall by left. apply IH. intros z Hz. apply Hall. by right.
Qed.

Lemma shipRun_odd ship s pos :
  ship_size ship = Some s -> Z.odd s = true ->
  pos ∈ shipRun ship <->
  exists k, 0 <= k < s /\
    pos = Some (centre (ship_orientation ship) (ship_position ship) - (s - 1) / 2 + k).
Proof.
  intros Hsize Hodd. unfold shipRun, run. rewrite Hsize, Hodd.
  rewrite list_elem_of_fmap. split.
  - intros (p & -> & Hp). apply elem_of_seqZ in Hp.
    exists (p - (centre (ship_orientation ship) (ship_position ship) - (s - 1) / 2)).
    split; [lia|f_equal; lia].
  - intros (k & Hk & ->). eexists. split; [done|]. apply elem_of_seqZ. lia.
Qed.

Lemma runCell_line o p s k :
  lineOf o p.1 (Some (centre o p - (s - 1) / 2 + k)) = Some (runCell o p s k).1 /\
  columnOf o p.2 (Some (centre o p - (s - 1) / 2 + k)) = Some (runCell o p s k).2.
Proof. by destruct o. Qed.

Lemma odd_half s : Z.odd s = true -> s - 1 = 2 * ((s - 1) / 2).
Proof.
  intros Hodd. rewrite Z.odd_spec in Hodd. destruct Hodd as [m ->].
  replace (2 * m + 1 - 1) with (m * 2) by lia. rewrite Z.div_mul by lia. lia.
Qed.

Lemma attack_cases b x y r b' :
  Board.attack (x, y) b = (r, b') ->
  (exists e, r = inl e /\ b' = b) \/
  (exists c,
     cellAt b x y = Some c /\ attacked c = false /\ r = inr (report c) /\
     boardSize b' = boardSize b /\
     forall x' y',
       cellAt b' x' y'
       = if decide (x' = x /\ y' = y) then Some (setAttacked c) else cellAt b x' y').
Proof.
  unfold Board.attack. unfoldM.
  destruct ((x <? 0) || (y <? 0) || (x >=? boardSize b) || (y >=? boardSize b));
    [intros [= <- <-]; left; eauto|].
  destruct (board b !! x) as [line|] eqn:El; [|intros [= <- <-]; left; eauto].
  destruct (line !! y) as [c|] eqn:Ec; [|intros [= <- <-]; left; eauto].
  destruct (attacked c) eqn:Ea; [intros [= <- <-]; left; eauto|].
  intros [= <- <-]. right. exists c.
  split; [unfold cellAt; by rewrite El|]. split; [done|].
  split; [by destruct c|]. split; [done|].
  intros x' y'. by apply cellAt_mark.
Qed.

(** A board fresh from the constructor holds an unattacked water cell at
    every position of the grid and nothing anywhere else. *)
Theorem new_board_is_open_water (n x y : Z) :
  boardSize (newBoard n) = n /\
  (inGrid (newBoard n) x y -> cellAt (newBoard n) x y = Some (WaterBoardCell false)) /\
  (~ inGrid (newBoard n) x y -> cellAt (newBoard n) x y = None).
Proof.
  split; [done|]. rewrite newBoard_cell. unfold inGrid. simpl.
  split; intros H; [by rewrite decide_True|by rewrite decide_False].
Qed.

(** On a board of the game, a ship of positive odd size whose cells all lie
    in the grid on water settles: the board keeps its size, each cell of
    the ship becomes an unattacked ship cell with the ship's id and its
    coordinate along the axis, and every other cell stays as it was. *)
Theorem settle_succeeds_on_free_cells (b : BattleShipBoard) (ship : ShipPiece) (s : Z) :
  boardOk b ->
  ship_size ship = Some s -> Z.odd s = true -> 0 < s ->
  (forall k, 0 <= k < s ->
     inGrid b (runCell (ship_orientation ship) (ship_position ship) s k).1
              (runCell (ship_orientation ship) (ship_position ship) s k).2 /\
     forall c,
       cellAt b (runCell (ship_orientation ship) (ship_position ship) s k).1
                (runCell (ship_orientation ship) (ship_position ship) s k).2 = Some c ->
       isShip c = false) ->
  exists b',
    Board.settleShip ship b = (inr tt, b') /\
    boardSize b' = boardSize b /\
    (forall k, 0 <= k < s ->
       cellAt b' (runCell (ship_orientation ship) (ship_position ship) s k).1
                 (runCell (ship_orientation ship) (ship_position ship) s k).2
       = Some (ShipBoardCell (ship_id ship)
                 (centre (ship_orientation ship) (ship_position ship) - (s - 1) / 2 + k)
                 false)) /\
    (forall x y,
       (forall k, 0 <= k < s ->
          (x, y) <> runCell (ship_orientation ship) (ship_position ship) s k) ->
       cellAt b' x y = cellAt b x y).
Proof.
  intros Hok Hsize Hodd Hpos Hfree.
  pose proof (odd_half s Hodd) as Hhalf.
  set (h := (s - 1) / 2) in *.
  assert (Hanchor : anchorOut b (ship_position ship) = false).
  { destruct (Hfree h) as [[Hx Hy] _]; [lia|].
    unfold anchorOut. rewrite !orb_false_iff.
    destruct (ship_position ship) as [x y], (ship_orientation ship);
      unfold runCell in *; fold h in Hx, Hy; simpl in *; lia. }
  assert (Hextent : extentOut (centre (ship_orientation ship) (ship_position ship))
                      (ship_size ship) (boardSize b) = false).
  { destruct (Hfree 0) as [[Hx0 Hy0] _]; [lia|].
    destruct (Hfree (s - 1)) as [[Hx1 Hy1] _]; [lia|].
    rewrite Hsize. simpl. rewrite orb_false_iff.
    destruct (ship_position ship) as [x y], (ship_orientation ship);
      unfold runCell, centre in *; fold h in Hx0, Hy0, Hx1, Hy1; simpl in *; lia. }
  assert (Hcheck : forall pos, pos ∈ shipRun ship ->
            checkFree ship
              (lineOf (ship_orientation ship) (ship_position ship).1 pos)
              (columnOf (ship_orientation ship) (ship_position ship).2 pos) b
            = (inr tt, b)).
  { intros pos Hin. apply (shipRun_odd ship s pos Hsize Hodd) in Hin as (k & Hk & ->).
    destruct (runCell_line (ship_orientation ship) (ship_position ship) s k) as [-> ->].
    destruct (Hfree k Hk) as [Hgrid Hwater].
    destruct (proj2 (Hok _ _) Hgrid) as [c Hc].
    unfold checkFree. unfoldM. rewrite Hc. by rewrite (Hwater c Hc). }
  assert (Hrun : exists b', Board.settleShip ship b = (inr tt, b')).
  { rewrite settleShip_unfold. unfold bind at 1, get. rewrite Hanchor, Hextent.
    unfold bind. rewrite (forEach_all_ok _ _ _ Hcheck).
    destruct (markLoop_runs
                (lineOf (ship_orientation ship) (ship_position ship).1)
                (columnOf (ship_orientation ship) (ship_position ship).2)
                (shipCell ship) (shipRun ship) b) as (b' & Hmark & _); [|eauto].
    intros pos Hin. apply (shipRun_odd ship s pos Hsize Hodd) in Hin as (k & Hk & ->).
    destruct (runCell_line (ship_orientation ship) (ship_position ship) s k) as [-> ->].
    destruct (Hfree k Hk) as [Hgrid _].
    destruct (proj2 (Hok _ _) Hgrid) as [c Hc].
    eexists _, _. repeat split. by eapply cellAt_line. }
  destruct Hrun as [b' Hrun]. exists b'. split; [done|].
  pose proof (settleShip_cases _ _ _ _ Hrun) as (_ & _ & Hsz & _ & Hcells).
  split; [done|]. split.
  - intros k Hk. pose proof (settleShip_marks ship b b' s k Hrun Hsize Hodd Hk) as Hm.
    fold h in Hm. unfold runCell. fold h.
    by destruct (ship_orientation ship).
  - intros x y Hoff. rewrite Hcells.
    destruct (marked ship x y) as [c|] eqn:Em; [|done].
    apply written_Some in Em as (pos & Hin & Hx & Hy & _).
    apply (shipRun_odd ship s pos Hsize Hodd) in Hin as (k & Hk & ->).
    destruct (runCell_line (ship_orientation ship) (ship_position ship) s k) as [Hl Hc].
    rewrite Hl in Hx. rewrite Hc in Hy. exfalso. apply (Hoff k Hk).
    destruct (runCell _ _ _ _). simpl in *. congruence.
Qed.

Lemma settle_succeeds_on_free_cells_witness :
  exists b',
    Board.settleShip (newShipPiece 1 (Some 3) VERTICAL (5, 2)) boardWithShip = (inr tt, b') /\
    cellAt b' 4 2 = Some (ShipBoardCell 1 4 false) /\
    cellAt b' 0 5 = Some (ShipBoardCell 0 5 false).
Proof.
  assert (Hok : boardOk boardWithShip).
  { eapply settleShip_boardOk; [apply (newBoard_ok 10)|]. apply surjective_pairing. }
  destruct (settle_succeeds_on_free_cells boardWithShip
              (newShipPiece 1 (Some 3) VERTICAL (5, 2)) 3 Hok)
    as (b' & Hrun & _ & Hmarks & Hframe); [reflexivity|reflexivity|lia| |].
  - intros k Hk.
    assert (k = 0 \/ k = 1 \/ k = 2) as [-> | [-> | ->]] by lia;
      (split; [vm_compute; intuition congruence|]);
      intros c; vm_compute; intros [= <-]; reflexivity.
  - exists b'. split; [exact Hrun|]. split.
    + apply (Hmarks 0). lia.
    + rewrite Hframe; [vm_compute; reflexivity|].
      intros k Hk Heq. apply (f_equal snd) in Heq. simpl in Heq. lia.
Defined.

Lemma fitting_ship_passes_tests b ship s :
  ship_size ship = Some s -> Z.odd s = true -> 0 < s ->
  (forall k, 0 <= k < s ->
     inGrid b (runCell (ship_orientation ship) (ship_position ship) s k).1
              (runCell (ship_orientation ship) (ship_position ship) s k).2) ->
  anchorOut b (ship_position ship) = false /\
  extentOut (centre (ship_orientation ship) (ship_position ship))
    (ship_size ship) (boardSize b) = false.
Proof.
  intros Hsize Hodd Hpos Hfit.
  pose proof (odd_half s Hodd) as Hhalf.
  set (h := (s - 1) / 2) in *.
  destruct (Hfit h) as [Hx Hy]; [lia|].
  destruct (Hfit 0) as [Hx0 Hy0]; [lia|].
  destruct (Hfit (s - 1)) as [Hx1 Hy1]; [lia|].
  rewrite Hsize. unfold anchorOut, extentOut. rewrite !orb_false_iff.
  destruct (ship_position ship) as [x y], (ship_orientation ship);
    unfold runCell, centre in *; fold h in Hx, Hy, Hx0, Hy0, Hx1, Hy1; simpl in *; lia.
Qed.

Lemma forEach_check_defined ship (fx fy : option Z -> option Z) (ps : list (option Z)) b :
  (forall pos, pos ∈ ps ->
     exists x y c, fx pos = Some x /\ fy pos = Some y /\ cellAt b x y = Some c) ->
  forEach ps (fun pos => checkFree ship (fx pos) (fy pos)) b = (inr tt, b) \/
  forEach ps (fun pos => checkFree ship (fx pos) (fy pos)) b
  = (inl (AlreadyOccupied (ship_id ship) (ship_size ship)), b).
Proof.
  induction ps as [|pos ps IH]; intros Hdef; [by left|].
  destruct (Hdef pos) as (x & y & c & Hx & Hy & Hc); [by left|].
  simpl. unfold bind.
  assert (Hone : checkFree ship (fx pos) (fy pos) b
                 = if isShip c
                   then (inl (AlreadyOccupied (ship_id ship) (ship_size ship)), b)
                   else (inr tt, b)).
  { unfold checkFree. unfoldM. rewrite Hx, Hy, Hc. by destruct (isShip c). }
  rewrite Hone. destruct (isShip c); [by right|].
  apply IH. intros q Hq. apply Hdef. by right.
Qed.

(** On a board of the game, a ship of positive odd size whose cells all lie
    in the grid, one of them on a ship cell, is refused with the overlap
    error, and the board stays as it was. *)
Theorem settle_refuses_overlap (b : BattleShipBoard) (ship : ShipPiece) (s k0 : Z)
    (c0 : BattleShipBoardCell) :
  boardOk b ->
  ship_size ship = Some s -> Z.odd s = true -> 0 < s ->
  (forall k, 0 <= k < s ->
     inGrid b (runCell (ship_orientation ship) (ship_position ship) s k).1
              (runCell (ship_orientation ship) (ship_position ship) s k).2) ->
  0 <= k0 < s ->
  cellAt b (runCell (ship_orientation ship) (ship_position ship) s k0).1
           (runCell (ship_orientation ship) (ship_position ship) s k0).2 = Some c0 ->
  isShip c0 = true ->
  Board.settleShip ship b = (inl (AlreadyOccupied (ship_id ship) (Some s)), b).
Proof.
  intros Hok Hsize Hodd Hpos Hfit Hk0 Hc0 Hship.
  destruct (fitting_ship_passes_tests b ship s Hsize Hodd Hpos Hfit) as [Hanchor Hextent].
  rewrite settleShip_unfold. unfold bind at 1, get. rewrite Hanchor, Hextent.
  unfold bind.
  destruct (forEach_check_defined ship
              (lineOf (ship_orientation ship) (ship_position ship).1)
              (columnOf (ship_orientation ship) (ship_position ship).2)
              (shipRun ship) b) as [Hfree|Hocc].
  - intros pos Hin. apply (shipRun_odd ship s pos Hsize Hodd) in Hin as (k & Hk & ->).
    destruct (runCell_line (ship_orientation ship) (ship_position ship) s k) as [-> ->].
    destruct (proj2 (Hok _ _) (Hfit k Hk)) as [c Hc]. by eexists _, _, c.
  - exfalso.
    assert (Hin : Some (centre (ship_orientation ship) (ship_position ship)
                          - (s - 1) / 2 + k0) ∈ shipRun ship).
    { apply (shipRun_odd ship s _ Hsize Hodd). eauto. }
    pose proof (forEach_readOnly_all _ _ _ _
                  (fun pos => checkFree_readOnly ship _ _) Hfree _ Hin) as Hone.
    simpl in Hone.
    destruct (runCell_line (ship_orientation ship) (ship_position ship) s k0) as [Hl Hc].
    rewrite Hl, Hc in Hone.
    apply checkFree_ok in Hone as (x & y & c & [= <-] & [= <-] & Hcell & Hwater).
    congruence.
  - rewrite Hocc. by rewrite Hsize.
Qed.

Lemma settle_refuses_overlap_witness :
  Board.settleShip (newShipPiece 1 (Some 3) VERTICAL (1, 5)) boardWithShip
  = (inl (AlreadyOccupied 1 (Some 3)), boardWithShip).
Proof.
  assert (Hok : boardOk boardWithShip).
  { eapply settleShip_boardOk; [apply (newBoard_ok 10)|]. apply surjective_pairing. }
  apply (settle_refuses_overlap boardWithShip (newShipPiece 1 (Some 3) VERTICAL (1, 5))
           3 0 (ShipBoardCell 0 5 false) Hok);
    try reflexivity; try lia.
  intros k Hk.
  assert (k = 0 \/ k = 1 \/ k = 2) as [-> | [-> | ->]] by lia;
    vm_compute; intuition congruence.
Defined.

(** A ship of positive odd size whose anchor or one of whose cells lies
    outside the grid is refused with one of the two out-of-bounds errors and
    the board stays as it was, unless the ship stands upright with its
    anchor in column [boardSize]. *)
Theorem settle_reports_ship_outside_grid (b : BattleShipBoard) (ship : ShipPiece) (s : Z) :
  ship_size ship = Some s -> Z.odd s = true -> 0 < s ->
  (~ inGrid b (ship_position ship).1 (ship_position ship).2 \/
   exists k, 0 <= k < s /\
     ~ inGrid b (runCell (ship_orientation ship) (ship_position ship) s k).1
                (runCell (ship_orientation ship) (ship_position ship) s k).2) ->
  ~ (ship_orientation ship = VERTICAL /\ (ship_position ship).2 = boardSize b) ->
  exists e, Board.settleShip ship b = (inl e, b) /\ isOutOfBounds e = true.
Proof.
  intros Hsize Hodd Hpos Hout Hcol.
  apply (settleShip_outside_reported ship b s Hsize Hodd Hpos); [|done].
  destruct Hout as [Hanchor|(k & Hk & Hcell)]; [by left|].
  destruct (decide (inGrid b (ship_position ship).1 (ship_position ship).2))
    as [Hin|Hnot]; [|by left].
  right. exists k. split; [done|]. simpl. intros Hp. apply Hcell.
  unfold inGrid, runCell, centre in *.
  destruct (ship_position ship) as [x y], (ship_orientation ship); simpl in *; lia.
Qed.

Lemma settle_reports_ship_outside_grid_witness :
  exists e,
    Board.settleShip (newShipPiece 0 (Some 3) HORIZONTAL (2, 9)) (newBoard 10)
    = (inl e, newBoard 10) /\ isOutOfBounds e = true.
Proof.
  apply (settle_reports_ship_outside_grid (newBoard 10)
           (newShipPiece 0 (Some 3) HORIZONTAL (2, 9)) 3);
    [reflexivity|reflexivity|lia| |].
  - right. exists 2. split; [lia|]. vm_compute. intuition congruence.
  - intros [H _]. discriminate H.
Defined.

(** A settle that succeeds never touches a cell that already held a ship:
    the board keeps its size, every ship cell stays as it was, and every
    cell that did change is now an unattacked cell of the settling ship. *)
Theorem settle_keeps_other_ships (b b' : BattleShipBoard) (ship : ShipPiece) :
  Board.settleShip ship b = (inr tt, b') ->
  boardSize b' = boardSize b /\
  (forall x y c, cellAt b x y = Some c -> isShip c = true -> cellAt b' x y = Some c) /\
  (forall x y, cellAt b' x y <> cellAt b x y ->
     exists p, cellAt b' x y = Some (ShipBoardCell (ship_id ship) p false)).
Proof.
  intros Hrun. apply settleShip_cases in Hrun as (_ & _ & Hsize & Hall & Hcells).
  split; [done|]. split.
  - intros x y c Hc Hship. rewrite Hcells.
    destruct (marked ship x y) as [m|] eqn:Em; [|done].
    apply written_Some in Em as (pos & Hin & Hx & Hy & _).
    destruct (Hall pos Hin) as (x0 & y0 & c' & Hx0 & Hy0 & Hc' & Hwater).
    assert (x0 = x) as -> by congruence. assert (y0 = y) as -> by congruence.
    congruence.
  - intros x y Hdiff. rewrite Hcells in *.
    destruct (marked ship x y) as [m|] eqn:Em; [|done].
    apply written_Some in Em as (pos & _ & _ & _ & ->). simpl. by eexists.
Qed.

Lemma settle_keeps_other_ships_witness :
  cellAt (Board.settleShip (newShipPiece 1 (Some 3) VERTICAL (5, 2)) boardWithShip).2 0 4
  = Some (ShipBoardCell 0 4 false).
Proof.
  destruct (settle_keeps_other_ships boardWithShip
              (Board.settleShip (newShipPiece 1 (Some 3) VERTICAL (5, 2)) boardWithShip).2
              (newShipPiece 1 (Some 3) VERTICAL (5, 2))) as (_ & Hkeep & _);
    [vm_compute; reflexivity|].
  apply Hkeep; vm_compute; reflexivity.
Defined.

Lemma run_without_length c size :
  size = None \/ (exists s, size = Some s /\ s <= 0) -> run c size = [].
Proof.
  intros [->|(s & -> & Hs)]; [done|]. unfold run.
  destruct (Z.odd s).
  - unfold seqZ. by replace (Z.to_nat s) with 0%nat by lia.
  - by replace (Z.to_nat s) with 0%nat by lia.
Qed.

(** A ship whose size is undefined, zero or negative covers no cell: with
    its anchor in a line of the grid and in a column from 0 to [boardSize]
    inclusive it settles, in either orientation, and the board is exactly
    as before. *)
Theorem settle_without_length (b : BattleShipBoard) (ship : ShipPiece) :
  ship_size ship = None \/ (exists s, ship_size ship = Some s /\ s <= 0) ->
  0 <= (ship_position ship).1 < boardSize b ->
  0 <= (ship_position ship).2 <= boardSize b ->
  Board.settleShip ship b = (inr tt, b).
Proof.
  intros Hsize Hx Hy. rewrite settleShip_unfold. unfold bind at 1, get.
  assert (Hanchor : anchorOut b (ship_position ship) = false).
  { unfold anchorOut. rewrite !orb_false_iff. lia. }
  assert (Hextent : extentOut (centre (ship_orientation ship) (ship_position ship))
                      (ship_size ship) (boardSize b) = false).
  { destruct Hsize as [->|(s & -> & Hs)]; [done|]. simpl. rewrite orb_false_iff.
    destruct (ship_orientation ship); unfold centre; lia. }
  rewrite Hanchor, Hextent. unfold shipRun. by rewrite run_without_length.
Qed.

Lemma settle_without_length_witness :
  Board.settleShip (newShipPiece 4 None VERTICAL (8, 10)) boardWithShip
  = (inr tt, boardWithShip).
Proof.
  apply settle_without_length; [by left| |]; vm_compute; intuition congruence.
Defined.

(** A ship of positive even size never settles: the call fails with an
    out-of-bounds error or with the engine's [TypeError], and the board
    stays as it was. *)
Theorem even_size_never_settles (b : BattleShipBoard) (ship : ShipPiece) (s : Z) :
  ship_size ship = Some s -> Z.even s = true -> 0 < s ->
  exists e,
    Board.settleShip ship b = (inl e, b) /\ (isOutOfBounds e = true \/ e = TypeError).
Proof.
  intros Hsize Heven Hpos. rewrite settleShip_unfold. unfold bind at 1, get.
  destruct (anchorOut b (ship_position ship)); [eexists; split; [done|by left]|].
  destruct (extentOut _ _ _); [eexists; split; [done|by left]|].
  exists TypeError. split; [|by right].
  unfold shipRun, run. rewrite Hsize.
  replace (Z.odd s) with false by (rewrite <- Z.negb_even, Heven; done).
  destruct (Z.to_nat s) as [|n] eqn:En; [lia|].
  simpl. unfold bind. unfold checkFree. unfoldM.
  by destruct (ship_orientation ship).
Qed.

Lemma even_size_never_settles_witness :
  exists e,
    Board.settleShip (newShipPiece 0 (Some 2) HORIZONTAL (3, 3)) (newBoard 10)
    = (inl e, newBoard 10) /\ (isOutOfBounds e = true \/ e = TypeError).
Proof.
  apply (even_size_never_settles (newBoard 10)
           (newShipPiece 0 (Some 2) HORIZONTAL (3, 3)) 2); [reflexivity|reflexivity|lia].
Defined.

(** Both operations of the board keep it a board of the game: whether they
    return or throw, the size is unchanged and exactly the positions of the
    grid hold a cell. *)
Theorem board_operations_keep_the_grid (b : BattleShipBoard) (ship : ShipPiece)
    (target : BoardPosition) :
  boardOk b ->
  (boardOk (Board.settleShip ship b).2 /\
   boardSize (Board.settleShip ship b).2 = boardSize b) /\
  (boardOk (Board.attack target b).2 /\
   boardSize (Board.attack target b).2 = boardSize b).
Proof.
  intros Hok. split; split.
  - eapply settleShip_boardOk; [exact Hok|apply surjective_pairing].
  - destruct (Board.settleShip ship b) as [[e|[]] b'] eqn:E;
      apply settleShip_cases in E; simpl; [by destruct E as [-> _]|tauto].
  - eapply attack_boardOk; [exact Hok|apply surjective_pairing].
  - destruct target as [x y].
    destruct (Board.attack (x, y) b) as [r b'] eqn:E.
    apply attack_cases in E as [(e & _ & ->)|(c & _ & _ & _ & Hs & _)]; done.
Qed.

Lemma board_operations_keep_the_grid_witness :
  boardOk (Board.settleShip (newShipPiece 0 (Some 3) HORIZONTAL (0, 5)) (newBoard 10)).2 /\
  boardOk (Board.attack (3, 3) (newBoard 10)).2.
Proof.
  destruct (board_operations_keep_the_grid (newBoard 10)
              (newShipPiece 0 (Some 3) HORIZONTAL (0, 5)) (3, 3) (newBoard_ok 10))
    as [[Hs _] [Ha _]].
  split; [exact Hs|exact Ha].
Defined.

(** An attack changes nothing but the flag of the target cell: the board
    keeps its size, every cell keeps its kind, ship id and part, no other
    cell changes, and a flag that was set stays set. *)
Theorem attack_only_flags_the_target (b b' : BattleShipBoard) (x y : Z)
    (r : Failure + option (Z * Z)) :
  Board.attack (x, y) b = (r, b') ->
  boardSize b' = boardSize b /\
  (forall x' y', report <$> cellAt b' x' y' = report <$> cellAt b x' y') /\
  (forall x' y', (x', y') <> (x, y) -> cellAt b' x' y' = cellAt b x' y') /\
  (forall x' y' c, cellAt b x' y' = Some c -> attacked c = true ->
     cellAt b' x' y' = Some c).
Proof.
  intros Hrun.
  apply attack_cases in Hrun as [(e & _ & ->)|(c & Hc & Ha & _ & Hsize & Hcells)];
    [done|].
  split; [done|]. split; [|split].
  - intros x' y'. rewrite Hcells. case_decide as Hd; [|done].
    destruct Hd as [-> ->]. rewrite Hc. by destruct c.
  - intros x' y' Hne. rewrite Hcells. rewrite decide_False; [done|].
    intros [-> ->]. done.
  - intros x' y' c' Hc' Ha'. rewrite Hcells. case_decide as Hd; [|done].
    destruct Hd as [-> ->]. congruence.
Qed.

Lemma attack_only_flags_the_target_witness :
  report <$> cellAt (Board.attack (0, 5) boardWithShip).2 0 5 = Some (Some (0, 5)) /\
  cellAt (Board.attack (0, 5) boardWithShip).2 0 4 = Some (ShipBoardCell 0 4 false).
Proof.
  destruct (attack_only_flags_the_target boardWithShip
              (Board.attack (0, 5) boardWithShip).2 0 5
              (Board.attack (0, 5) boardWithShip).1) as (_ & Hkind & Hrest & _);
    [apply surjective_pairing|].
  split.
  - rewrite Hkind. vm_compute. reflexivity.
  - rewrite Hrest; [vm_compute; reflexivity|]. intros Heq.
    apply (f_equal snd) in Heq. simpl in Heq. lia.
Defined.

(** ** Players and the game *)

Lemma wired_seat g player :
  wired g ->
  (if decide (playerId (p1 g) = player) then SeatP1 else SeatP2) = seatOf player /\
  (if decide (player = P1) then SeatP1 else SeatP2) = seatOf player /\
  shipBoard (getPlayer (seatOf player) g) = boardOfSeat (seatOf player) /\
  pinBoard (getPlayer (seatOf player) g) = boardOfSeat (otherSeat (seatOf player)) /\
  defender player = otherSeat (seatOf player).
Proof.
  intros (H1 & H2 & Hs1 & Hp1 & Hs2 & Hp2). unfold defender.
  destruct player; simpl; rewrite ?H1; repeat case_decide; try done.
Qed.

Lemma getPlayer_setPlayer s p g : getPlayer s (setPlayer s p g) = p.
Proof. by destruct s. Qed.

Lemma getPlayer_setPlayer_other s p g :
  getPlayer (otherSeat s) (setPlayer s p g) = getPlayer (otherSeat s) g.
Proof. by destruct s. Qed.

Lemma getBoard_setPlayer r s p g : getBoard r (setPlayer s p g) = getBoard r g.
Proof. by destruct r, s. Qed.

Lemma getBoard_setBoard r b g : getBoard r (setBoard r b g) = b.
Proof. by destruct r. Qed.

Lemma getBoard_setBoard_other s b g :
  getBoard (boardOfSeat (otherSeat s)) (setBoard (boardOfSeat s) b g)
  = getBoard (boardOfSeat (otherSeat s)) g.
Proof. by destruct s. Qed.

Lemma Game_settleShip_eq player size o position g :
  wired g ->
  Game.settleShip player size o position g =
  let seat := seatOf player in
  let this := getPlayer seat g in
  let ship := newShipPiece (shipCount this) size o position in
  match Board.settleShip ship (getBoard (boardOfSeat seat) g) with
  | (inl e, b') => (inl e, setBoard (boardOfSeat seat) b' g)
  | (inr _, b') =>
      (inr tt,
       setPlayer seat (setShipCount (shipCount this + 1) (pushShip ship this))
         (setBoard (boardOfSeat seat) b' g))
  end.
Proof.
  intros Hw. destruct (wired_seat g player Hw) as (Hseat & _ & Hboard & _).
  unfold Game.settleShip, bind, get.
  assert (Hgo : (if decide (playerId (p1 g) = player)
                 then Player.settleShip SeatP1 size o position
                 else Player.settleShip SeatP2 size o position) g
                = Player.settleShip (seatOf player) size o position g).
  { rewrite <- Hseat. by destruct (decide _). }
  rewrite Hgo, Player_settleShip_eq. cbn zeta. by rewrite Hboard.
Qed.

(** On a game wired by the constructor, [Game.settleShip] either throws,
    with the failure of the named player's ship board, and leaves the whole
    game as it was; or it returns, and then the named player's ship board is
    the board settled on, that player's roster has one more ship at its end
    (id equal to the counter of live ships before the call, the size,
    orientation and position given, no damage), the counter is one higher,
    and the other player and the other board are untouched. *)
Theorem game_settle_effect (g : BattleShipGame) (player : PLAYER) (size : option Z)
    (o : ORIENTATION) (position : BoardPosition) :
  wired g ->
  let seat := seatOf player in
  let this := getPlayer seat g in
  let ship := newShipPiece (shipCount this) size o position in
  match Game.settleShip player size o position g with
  | (inl e, g') =>
      g' = g /\
      Board.settleShip ship (getBoard (boardOfSeat seat) g)
      = (inl e, getBoard (boardOfSeat seat) g)
  | (inr _, g') =>
      Board.settleShip ship (getBoard (boardOfSeat seat) g)
      = (inr tt, getBoard (boardOfSeat seat) g') /\
      ships (getPlayer seat g') = ships this ++ [ship] /\
      shipCount (getPlayer seat g') = shipCount this + 1 /\
      getPlayer (otherSeat seat) g' = getPlayer (otherSeat seat) g /\
      getBoard (boardOfSeat (otherSeat seat)) g'
      = getBoard (boardOfSeat (otherSeat seat)) g
  end.
Proof.
  intros Hw seat this ship. rewrite Game_settleShip_eq by done. cbn zeta.
  fold seat. fold this. fold ship.
  destruct (Board.settleShip ship (getBoard (boardOfSeat seat) g))
    as [[e|[]] b'] eqn:Eb.
  - pose proof (settleShip_cases _ _ _ _ Eb) as [-> _].
    split; [|done]. destruct seat, g; done.
  - rewrite getPlayer_setPlayer, getPlayer_setPlayer_other, !getBoard_setPlayer,
      getBoard_setBoard, getBoard_setBoard_other, getPlayer_setBoard.
    done.
Qed.

Lemma newGame_wired n : wired (newGame n).
Proof. by repeat split. Qed.

Lemma game_settle_effect_witness :
  ships (p2 (Game.settleShip P2 (Some 1) HORIZONTAL (0, 0) (newGame 10)).2)
  = [newShipPiece 0 (Some 1) HORIZONTAL (0, 0)] /\
  p1 (Game.settleShip P2 (Some 1) HORIZONTAL (0, 0) (newGame 10)).2 = p1 (newGame 10).
Proof.
  pose proof (game_settle_effect (newGame 10) P2 (Some 1) HORIZONTAL (0, 0)
                (newGame_wired 10)) as H.
  cbn zeta in H.
  destruct (Game.settleShip P2 (Some 1) HORIZONTAL (0, 0) (newGame 10))
    as [[e|u] g'] eqn:E.
  - exfalso. vm_compute in E. discriminate E.
  - destruct H as (_ & Hships & _ & Hother & _). split; [exact Hships|exact Hother].
Defined.

Lemma freshRoster_push p size o position :
  freshRoster p ->
  freshRoster (setShipCount (shipCount p + 1)
                 (pushShip (newShipPiece (shipCount p) size o position) p)).
Proof.
  intros [Hcount Hships]. split; simpl.
  - rewrite length_app. simpl. lia.
  - intros i ship Hi. apply lookup_app_Some in Hi as [Hi|[Hlen Hi]]; [by apply Hships|].
    destruct (i - length (ships p))%nat as [|j] eqn:Ej; [|done].
    simpl in Hi. injection Hi as <-. simpl.
    split; [lia|]. split; [done|]. apply Forall_replicate. done.
Qed.

(** While ships are only being settled, as in the crafting phase, each
    player's counter of live ships is the length of the roster, and the ship
    at each index of the roster has that index as its id and no damage. *)
Theorem placement_ids_are_roster_indices (g : BattleShipGame) (seat : Seat) :
  placing g ->
  shipCount (getPlayer seat g) = Z.of_nat (length (ships (getPlayer seat g))) /\
  forall i ship,
    ships (getPlayer seat g) !! i = Some ship ->
    ship_id ship = Z.of_nat i /\ ship_damage ship = 0 /\
    Forall (fun v => v = false) (ship_damaged ship).
Proof.
  intros Hplacing. revert seat.
  change (forall seat, freshRoster (getPlayer seat g)).
  induction Hplacing as [n|g player size o position _ IH]; intros seat.
  - destruct seat; (split; [done|]); intros i ship Hi; done.
  - unfold Game.settleShip, bind, get.
    destruct (decide _) as [Heq|Hne]; rewrite Player_settleShip_eq; cbn zeta;
      destruct (Board.settleShip _ _) as [[e|[]] b']; cbn [snd];
      try (rewrite getPlayer_setBoard; apply IH).
    + destruct seat.
      * rewrite getPlayer_setPlayer. apply (freshRoster_push (p1 g)), (IH SeatP1).
      * rewrite (getPlayer_setPlayer_other SeatP1), getPlayer_setBoard. apply IH.
    + destruct seat.
      * rewrite (getPlayer_setPlayer_other SeatP2), getPlayer_setBoard. apply IH.
      * rewrite getPlayer_setPlayer. apply (freshRoster_push (p2 g)), (IH SeatP2).
Qed.

Lemma placement_ids_are_roster_indices_witness :
  placing gameLastShip /\
  shipCount (getPlayer SeatP2 gameLastShip) = 1 /\
  forall ship, ships (getPlayer SeatP2 gameLastShip) !! 0%nat = Some ship -> ship_id ship = 0.
Proof.
  assert (Hp : placing gameLastShip) by apply placing_settle, placing_new.
  split; [exact Hp|].
  destruct (placement_ids_are_roster_indices gameLastShip SeatP2 Hp) as [Hcount Hids].
  split; [exact Hcount|]. intros ship Hship. by destruct (Hids 0%nat ship Hship).
Defined.

Lemma receiveDamage_roster shipId part p r p' :
  Player.receiveDamage shipId part p = (r, p') ->
  playerId p' = playerId p /\ shipBoard p' = shipBoard p /\ pinBoard p' = pinBoard p /\
  settledSizes p' = settledSizes p /\ rosterIds p' = rosterIds p /\
  (forall e, r = inl e -> p' = p).
Proof.
  rewrite receiveDamage_eq.
  destruct (_ || _); [by intros [= <- <-]|].
  destruct (ships p !! Z.to_nat shipId) as [ship|] eqn:Eship; [|by intros [= <- <-]].
  destruct ((part <? 0) || geSize part (ship_size ship)); [by intros [= <- <-]|].
  destruct (default false _); [by intros [= <- <-]|].
  assert (Hsizes : ship_size <$> <[Z.to_nat shipId := damagePart (Z.to_nat part) ship]>
                                   (ships p) = ship_size <$> ships p).
  { rewrite list_fmap_insert. simpl. apply list_insert_id. by rewrite list_lookup_fmap, Eship. }
  assert (Hids : ship_id <$> <[Z.to_nat shipId := damagePart (Z.to_nat part) ship]>
                               (ships p) = ship_id <$> ships p).
  { rewrite list_fmap_insert. simpl. apply list_insert_id. by rewrite list_lookup_fmap, Eship. }
  cbn zeta.
  destruct (eqSize _ _); intros [= <- <-]; unfold settledSizes, rosterIds; simpl;
    by repeat split.
Qed.

Lemma Game_attack_roster (g g' : BattleShipGame) (attackerId : PLAYER)
    (target : BoardPosition) (r : Failure + bool) :
  wired g ->
  Game.attack attackerId target g = (r, g') ->
  getPlayer (seatOf attackerId) g' = getPlayer (seatOf attackerId) g /\
  getBoard (boardOfSeat (seatOf attackerId)) g'
  = getBoard (boardOfSeat (seatOf attackerId)) g /\
  settledSizes (getPlayer (otherSeat (seatOf attackerId)) g')
  = settledSizes (getPlayer (otherSeat (seatOf attackerId)) g) /\
  rosterIds (getPlayer (otherSeat (seatOf attackerId)) g')
  = rosterIds (getPlayer (otherSeat (seatOf attackerId)) g) /\
  (forall e, r = inl e -> p1 g' = p1 g /\ p2 g' = p2 g).
Proof.
  intros Hw. destruct (wired_seat g attackerId Hw) as (_ & Hseat & _ & Hpins & Hdef).
  rewrite Game_attack_eq. cbn zeta. rewrite Hseat, Hpins, Hdef.
  set (seat := seatOf attackerId).
  destruct (Board.attack target _) as [[e|[[shipId part]|]] b'].
  - intros [= <- <-]. by destruct seat.
  - destruct (Player.receiveDamage _ _ _) as [[e|d] p'] eqn:Er;
      apply receiveDamage_roster in Er as (_ & _ & _ & Hsizes & Hids & Hfail);
      rewrite getPlayer_setBoard in *; intros [= <- <-].
    + rewrite (Hfail e eq_refl). by destruct seat.
    + destruct seat; simpl in *; by repeat split.
  - intros [= <- <-]. by destruct seat.
Qed.

(** On a game wired by the constructor, an attack leaves the attacker and
    the attacker's own ship board untouched, and leaves the attacked
    player's roster with the same ships in the same order (same ids, same
    sizes); an attack that throws leaves both players as they were. *)
Theorem game_attack_frame (g g' : BattleShipGame) (attackerId : PLAYER)
    (target : BoardPosition) (r : Failure + bool) :
  wired g ->
  Game.attack attackerId target g = (r, g') ->
  getPlayer (seatOf attackerId) g' = getPlayer (seatOf attackerId) g /\
  getBoard (boardOfSeat (seatOf attackerId)) g'
  = getBoard (boardOfSeat (seatOf attackerId)) g /\
  settledSizes (getPlayer (otherSeat (seatOf attackerId)) g')
  = settledSizes (getPlayer (otherSeat (seatOf attackerId)) g) /\
  rosterIds (getPlayer (otherSeat (seatOf attackerId)) g')
  = rosterIds (getPlayer (otherSeat (seatOf attackerId)) g) /\
  (forall e, r = inl e -> p1 g' = p1 g /\ p2 g' = p2 g).
Proof. apply Game_attack_roster. Qed.

Lemma game_attack_frame_witness :
  p1 (Game.attack P1 (0, 0) gameLastShip).2 = p1 gameLastShip /\
  settledSizes (p2 (Game.attack P1 (0, 0) gameLastShip).2) = [Some 1].
Proof.
  assert (Hw : wired gameLastShip) by (by repeat split).
  destruct (game_attack_frame gameLastShip (Game.attack P1 (0, 0) gameLastShip).2
              P1 (0, 0) (Game.attack P1 (0, 0) gameLastShip).1 Hw)
    as (Hatt & _ & Hsizes & _); [apply surjective_pairing|].
  split; [exact Hatt|]. simpl in Hsizes. rewrite Hsizes. reflexivity.
Defined.

Lemma gameSound_seats g :
  gameSound g <->
  wired g /\ gameOk g /\
  forall s, boardOk (getBoard (boardOfSeat s) g) /\ cellsNamed g s.
Proof.
  unfold gameSound. split.
  - intros (Hw & Hok & Hb1 & Hb2 & Hc1 & Hc2). split; [done|]. split; [done|].
    intros []; done.
  - intros (Hw & Hok & Hs). destruct (Hs SeatP1), (Hs SeatP2). done.
Qed.

Lemma seat_cases (seat s : Seat) : s = seat \/ s = otherSeat seat.
Proof. destruct seat, s; auto. Qed.

Lemma playerOk_bounds p :
  playerOk p -> 0 <= shipCount p <= Z.of_nat (length (ships p)).
Proof.
  intros [_ Hcount].
  pose proof (length_filter (fun s => sunk s = true) (ships p)). lia.
Qed.

Lemma wired_setBoard r b g : wired g -> wired (setBoard r b g).
Proof. by destruct r. Qed.

Lemma wired_setPlayer s p g :
  wired g ->
  playerId p = playerId (getPlayer s g) ->
  shipBoard p = shipBoard (getPlayer s g) ->
  pinBoard p = pinBoard (getPlayer s g) ->
  wired (setPlayer s p g).
Proof.
  intros (H1 & H2 & H3 & H4 & H5 & H6) Hid Hsb Hpb.
  destruct s; unfold wired; simpl in *; repeat split; congruence.
Qed.

Lemma newGame_sound n : gameSound (newGame n).
Proof.
  apply gameSound_seats. split; [apply newGame_wired|]. split; [apply newGame_ok|].
  intros s. split.
  - destruct s; apply newBoard_ok.
  - intros x y i p a Hc. exfalso.
    assert (Hw : cellAt (newBoard n) x y = Some (ShipBoardCell i p a)) by (by destruct s).
    rewrite newBoard_cell in Hw. by case_decide.
Qed.

Lemma settleShip_sound player size o position g :
  gameSound g -> gameSound (Game.settleShip player size o position g).2.
Proof.
  intros Hsound.
  pose proof (proj1 (gameSound_seats g) Hsound) as (Hw & Hok & Hseats).
  apply gameSound_seats.
  split; [|split; [by apply settleShip_gameOk|]].
  - rewrite Game_settleShip_eq by done. cbn zeta.
    destruct (Board.settleShip _ _) as [[e|[]] b']; cbn [snd];
      [by apply wired_setBoard|].
    apply wired_setPlayer; [by apply wired_setBoard|..];
      by rewrite getPlayer_setBoard.
  - rewrite Game_settleShip_eq by done. cbn zeta.
    set (seat := seatOf player). set (this := getPlayer seat g).
    set (ship := newShipPiece (shipCount this) size o position).
    destruct (Board.settleShip ship (getBoard (boardOfSeat seat) g))
      as [[e|[]] b'] eqn:Eb; cbn [snd].
    + pose proof (settleShip_cases _ _ _ _ Eb) as [-> _].
      by rewrite setBoard_getBoard.
    + intros s. destruct (seat_cases seat s) as [->| ->].
      * destruct (Hseats seat) as [Hb Hnamed]. split.
        -- rewrite getBoard_setPlayer, getBoard_setBoard.
           by eapply settleShip_boardOk.
        -- intros x y i p a. rewrite getBoard_setPlayer, getBoard_setBoard,
             getPlayer_setPlayer. simpl. rewrite length_app. simpl.
           pose proof (settleShip_cases _ _ _ _ Eb) as (_ & _ & _ & _ & Hcells).
           rewrite Hcells.
           pose proof (playerOk_bounds this (gameOk_getPlayer seat g Hok)) as Hbound.
           destruct (marked ship x y) as [m|] eqn:Em; simpl.
           ++ apply written_Some in Em as (pos & _ & _ & _ & ->).
              unfold shipCell, ship. simpl. intros [= <- _ _]. fold this. lia.
           ++ intros Hc. pose proof (Hnamed x y i p a Hc). fold this in H. lia.
      * destruct (Hseats (otherSeat seat)) as [Hb Hnamed]. split.
        -- by rewrite getBoard_setPlayer, getBoard_setBoard_other.
        -- intros x y i p a.
           rewrite getBoard_setPlayer, getBoard_setBoard_other,
             getPlayer_setPlayer_other, getPlayer_setBoard.
           apply Hnamed.
Qed.

Lemma attack_named_cells b x y r b' x' y' i p a :
  Board.attack (x, y) b = (r, b') ->
  cellAt b' x' y' = Some (ShipBoardCell i p a) ->
  exists a0, cellAt b x' y' = Some (ShipBoardCell i p a0).
Proof.
  intros Hrun Hc.
  apply attack_cases in Hrun as [(e & _ & ->)|(c & Hcell & _ & _ & _ & Hcells)];
    [eauto|].
  rewrite Hcells in Hc. case_decide as Hd; [|eauto].
  destruct Hd as [-> ->]. rewrite Hcell. destruct c; simpl in Hc; [done|].
  injection Hc as -> -> _. eauto.
Qed.

Lemma otherSeat_involutive s : otherSeat (otherSeat s) = s.
Proof. by destruct s. Qed.

Lemma attack_sound attackerId target g :
  gameSound g -> gameSound (Game.attack attackerId target g).2.
Proof.
  intros Hsound.
  pose proof (proj1 (gameSound_seats g) Hsound) as (Hw & Hok & Hseats).
  destruct (wired_seat g attackerId Hw) as (_ & Hseat & _ & Hpins & Hdef).
  apply gameSound_seats.
  split; [|split; [by apply attack_gameOk|]].
  - rewrite Game_attack_eq. cbn zeta.
    destruct (Board.attack _ _) as [[e|[[shipId part]|]] b']; cbn [snd].
    + by apply wired_setBoard.
    + destruct (Player.receiveDamage _ _ _) as [[e|d] p'] eqn:Er;
        apply receiveDamage_roster in Er as (Hid & Hsb & Hpb & _); cbn [snd];
        (apply wired_setPlayer; [by apply wired_setBoard|done..]).
    + by apply wired_setBoard.
  - rewrite Game_attack_eq. cbn zeta. rewrite Hseat, Hpins, Hdef.
    set (seat := seatOf attackerId). set (def := otherSeat seat).
    destruct target as [x y].
    destruct (Board.attack (x, y) (getBoard (boardOfSeat def) g)) as [rb b'] eqn:Eb.
    assert (Hb' : boardOk b').
    { eapply attack_boardOk; [apply (Hseats def)|exact Eb]. }
    assert (Hnamed' : forall x' y' i p a,
              cellAt b' x' y' = Some (ShipBoardCell i p a) ->
              0 <= i < Z.of_nat (length (ships (getPlayer def g)))).
    { intros x' y' i p a Hc.
      destruct (attack_named_cells _ _ _ _ _ _ _ _ _ _ Eb Hc) as [a0 Hc0].
      by apply (proj2 (Hseats def) x' y' i p a0). }
    assert (Hplain : forall s,
              boardOk (getBoard (boardOfSeat s) (setBoard (boardOfSeat def) b' g)) /\
              cellsNamed (setBoard (boardOfSeat def) b' g) s).
    { intros s. destruct (seat_cases def s) as [->| ->].
      - split; [by rewrite getBoard_setBoard|].
        intros x' y' i p a. rewrite getBoard_setBoard, getPlayer_setBoard. apply Hnamed'.
      - destruct (Hseats (otherSeat def)) as [Hb Hn]. split.
        + by rewrite getBoard_setBoard_other.
        + intros x' y' i p a. rewrite getBoard_setBoard_other, getPlayer_setBoard.
          apply Hn. }
    destruct rb as [e|[[shipId part]|]]; cbn [snd]; [exact Hplain| |exact Hplain].
    destruct (Player.receiveDamage _ _ _) as [r p'] eqn:Er.
    rewrite getPlayer_setBoard in Er.
    pose proof (receiveDamage_roster _ _ _ _ _ Er) as (_ & _ & _ & Hsizes & _).
    assert (Hlen : length (ships p') = length (ships (getPlayer def g))).
    { unfold settledSizes in Hsizes.
      by rewrite <- (length_fmap ship_size (ships p')), Hsizes, length_fmap. }
    assert (Hgoal : forall s,
              boardOk (getBoard (boardOfSeat s)
                         (setPlayer def p' (setBoard (boardOfSeat def) b' g))) /\
              cellsNamed (setPlayer def p' (setBoard (boardOfSeat def) b' g)) s).
    { intros s. destruct (Hplain s) as [Hb Hn]. split.
      - by rewrite getBoard_setPlayer.
      - intros x' y' i p a. rewrite getBoard_setPlayer.
        destruct (seat_cases def s) as [->| ->].
        + rewrite getPlayer_setPlayer, Hlen, getBoard_setBoard. apply Hnamed'.
        + rewrite getPlayer_setPlayer_other. apply Hn. }
    by destruct r.
Qed.

Lemma reachable_sound g : reachable g -> gameSound g.
Proof.
  induction 1 as [n|g player size o position _ IH|g attackerId target _ IH].
  - apply newGame_sound.
  - by apply settleShip_sound.
  - by apply attack_sound.
Qed.

(** On a game reached through its operations, an attack that throws throws
    one of four errors: target out of bounds, target already attacked, part
    outside the ship, part already damaged.  It never throws the invalid
    ship id error nor the engine's [TypeError]: every ship cell names a ship
    of the attacked player's roster. *)
Theorem attack_throws_only_four_errors (g g' : BattleShipGame) (attackerId : PLAYER)
    (target : BoardPosition) (e : Failure) :
  reachable g ->
  Game.attack attackerId target g = (inl e, g') ->
  attackFailure e = true.
Proof.
  intros Hreach. apply reachable_sound in Hreach.
  pose proof (proj1 (gameSound_seats g) Hreach) as (Hw & Hok & Hseats).
  destruct (wired_seat g attackerId Hw) as (_ & Hseat & _ & Hpins & Hdef).
  rewrite Game_attack_eq. cbn zeta. rewrite Hseat, Hpins, Hdef.
  set (def := otherSeat (seatOf attackerId)).
  destruct (Hseats def) as [Hb Hnamed]. destruct target as [x y].
  destruct (decide (inGrid (getBoard (boardOfSeat def) g) x y)) as [Hin|Hout].
  - destruct (proj2 (Hb x y) Hin) as [c Hc].
    rewrite (attack_inside _ _ _ _ Hin Hc).
    destruct (attacked c) eqn:Ea; [by intros [= <- <-]|].
    destruct c as [a|i p a]; simpl; [done|].
    rewrite getPlayer_setBoard, receiveDamage_eq.
    pose proof (Hnamed x y i p a Hc) as Hi.
    rewrite (proj2 (orb_false_iff _ _)) by (split; lia).
    destruct (lookup_lt_is_Some_2 (ships (getPlayer def g)) (Z.to_nat i)) as [ship Hship];
      [lia|].
    rewrite Hship.
    destruct ((p <? 0) || geSize p (ship_size ship)); [by intros [= <- <-]|].
    destruct (default false _); [by intros [= <- <-]|].
    cbn zeta. by destruct (eqSize _ _).
  - rewrite attack_outside by done. by intros [= <- <-].
Qed.

Lemma attack_throws_only_four_errors_witness :
  reachable gameLastShip /\
  Game.attack P1 (0, 10) gameLastShip = (inl (AttackOutOfBounds 0 10), gameLastShip) /\
  attackFailure (AttackOutOfBounds 0 10) = true.
Proof.
  assert (Hreach : reachable gameLastShip) by apply reach_settle, reach_new.
  assert (Hrun : Game.attack P1 (0, 10) gameLastShip
                 = (inl (AttackOutOfBounds 0 10), gameLastShip))
    by (vm_compute; reflexivity).
  split; [exact Hreach|]. split; [exact Hrun|].
  exact (attack_throws_only_four_errors gameLastShip gameLastShip P1 (0, 10)
           (AttackOutOfBounds 0 10) Hreach Hrun).
Defined.

(** On a game reached through its operations, each player's counter of live
    ships is the length of the roster less the ships that were sunk; it is
    never negative and never more than the roster holds. *)
Theorem live_counter_within_roster (g : BattleShipGame) (seat : Seat) :
  reachable g ->
  shipCount (getPlayer seat g)
  = Z.of_nat (length (ships (getPlayer seat g)))
    - Z.of_nat (length (filter (fun s => sunk s = true) (ships (getPlayer seat g)))) /\
  0 <= shipCount (getPlayer seat g) <= Z.of_nat (length (ships (getPlayer seat g))).
Proof.
  intros Hreach. apply reachable_ok in Hreach.
  pose proof (gameOk_getPlayer seat g Hreach) as Hp.
  split; [apply Hp|by apply playerOk_bounds].
Qed.

Lemma live_counter_within_roster_witness :
  reachable (Game.attack P1 (0, 0) gameLastShip).2 /\
  shipCount (getPlayer SeatP2 (Game.attack P1 (0, 0) gameLastShip).2) = 1 - 1.
Proof.
  assert (Hreach : reachable (Game.attack P1 (0, 0) gameLastShip).2)
    by apply reach_attack, reach_settle, reach_new.
  split; [exact Hreach|].
  destruct (live_counter_within_roster _ SeatP2 Hreach) as [Hcount _].
  rewrite Hcount. vm_compute. reflexivity.
Defined.

(** ** The rules, event by event *)

#[local] Arguments Rules.generateControls : simpl never.

Lemma generateControls_crafting s now :
  Rules.generateControls (SHIP_CRAFTING s) now
  = if decide (sc_player s = P2 /\ statePlayer now = P1) then [DisableRotation] else [].
Proof. done. Qed.

Lemma generateControls_same_player s s' :
  sc_player s' = sc_player s ->
  Rules.generateControls (SHIP_CRAFTING s) (SHIP_CRAFTING s') = [].
Proof.
  intros Hp. rewrite generateControls_crafting. simpl.
  case_decide as Hd; [|done]. destruct Hd. congruence.
Qed.

(** A second select right after a select does nothing: no command, no
    control, and the rules state and the game stay as the first select left
    them. *)
Theorem select_twice_is_select_once (w : Rules.World) :
  Rules.apply BSSelectEvent (Rules.apply BSSelectEvent w).2
  = (([], []), (Rules.apply BSSelectEvent w).2).
Proof.
  destruct w as [[s|s|s] g]; unfold Rules.apply; simpl; [| |done].
  - destruct (sc_selected s) eqn:Es; simpl; rewrite ?Es; simpl;
      by rewrite generateControls_same_player.
  - by destruct (bt_selected s) eqn:Es; simpl; rewrite ?Es.
Qed.

(** A rotate is honoured only in the crafting phase with the piece
    selected: otherwise it yields no command and changes nothing.  When it
    is honoured it emits one rotate command, and a second rotate brings the
    rules state back to what it was. *)
Theorem rotate_is_an_involution (w : Rules.World) :
  (match w.1 with
   | SHIP_CRAFTING s => sc_selected s = false
   | _ => True
   end ->
   Rules.apply BSRotateEvent w = (([], []), w)) /\
  (forall s, w.1 = SHIP_CRAFTING s -> sc_selected s = true ->
     (Rules.apply BSRotateEvent w).1 = ([RotateShipCmd], []) /\
     (exists s', (Rules.apply BSRotateEvent w).2 = (SHIP_CRAFTING s', w.2) /\
                 sc_orientation s' <> sc_orientation s) /\
     (Rules.apply BSRotateEvent (Rules.apply BSRotateEvent w).2).2 = w).
Proof.
  destruct w as [st g]. split.
  - destruct st as [s|s|s]; simpl; [|done|done].
    intros Hsel. unfold Rules.apply. simpl. rewrite Hsel. simpl.
    by rewrite generateControls_same_player.
  - intros s Hst Hsel. simpl in Hst. subst st.
    unfold Rules.apply. simpl. rewrite Hsel. simpl. rewrite Hsel. simpl.
    split; [by rewrite generateControls_same_player|]. split.
    + eexists. split; [done|]. simpl. by destruct (sc_orientation s).
    + destruct s as [pl sel sq it o ps]. simpl in *. by destruct o.
Qed.

Lemma rotate_is_an_involution_witness :
  (Rules.apply BSRotateEvent
     (Rules.apply BSRotateEvent
        (SHIP_CRAFTING (sc_setSelected true (newShipCraftState [Some 1; Some 3] P1)), newGame 10)).2).2
  = (SHIP_CRAFTING (sc_setSelected true (newShipCraftState [Some 1; Some 3] P1)), newGame 10)
  /\
  Rules.apply BSRotateEvent (SHIP_CRAFTING (newShipCraftState [Some 1; Some 3] P1), newGame 10)
  = (([], []), (SHIP_CRAFTING (newShipCraftState [Some 1; Some 3] P1), newGame 10)).
Proof.
  split.
  - destruct (rotate_is_an_involution
                (SHIP_CRAFTING (sc_setSelected true (newShipCraftState [Some 1; Some 3] P1)),
                 newGame 10)) as [_ H].
    destruct (H (sc_setSelected true (newShipCraftState [Some 1; Some 3] P1)))
      as (_ & _ & Hback); [reflexivity|reflexivity|exact Hback].
  - apply (proj1 (rotate_is_an_involution
                    (SHIP_CRAFTING (newShipCraftState [Some 1; Some 3] P1), newGame 10))).
    reflexivity.
Defined.

(** A move is honoured only with the piece selected and over the grid of
    the phase, the ship grid while crafting and the pin grid in battle:
    otherwise it yields no command and changes nothing.  When it is honoured
    the pending position is the target, and of two moves in a row the later
    one decides. *)
Theorem move_records_the_last_target (w : Rules.World) (loc : BSMoveLoc)
    (to to' : BoardPosition) :
  (match w.1 with
   | SHIP_CRAFTING s => sc_selected s = false \/ loc = PIN_GRID
   | BATTLE s => bt_selected s = false \/ loc = SHIP_GRID
   | GAME_OVER _ => True
   end ->
   Rules.apply (BSMoveEvent to loc) w = (([], []), w)) /\
  (match w.1 with
   | SHIP_CRAFTING s => sc_selected s = true /\ loc = SHIP_GRID
   | BATTLE s => bt_selected s = true /\ loc = PIN_GRID
   | GAME_OVER _ => False
   end ->
   match (Rules.apply (BSMoveEvent to loc) w).2.1 with
   | SHIP_CRAFTING s' => sc_pos s' = Some to
   | BATTLE s' => bt_pos s' = Some to
   | GAME_OVER _ => False
   end /\
   (Rules.apply (BSMoveEvent to loc) w).2.2 = w.2 /\
   (Rules.apply (BSMoveEvent to' loc) (Rules.apply (BSMoveEvent to loc) w).2).2
   = (Rules.apply (BSMoveEvent to' loc) w).2).
Proof.
  destruct w as [[s|s|s] g]; unfold Rules.apply; simpl; (split; [|try done]).
  - intros [Hsel| ->]; [|simpl; by rewrite generateControls_same_player].
    rewrite Hsel. destruct (decide (loc = SHIP_GRID)); simpl;
      by rewrite generateControls_same_player.
  - intros [Hsel ->]. simpl. rewrite Hsel. simpl. rewrite Hsel. by simpl.
  - intros [Hsel| ->]; [|done].
    rewrite Hsel. by destruct (decide (loc = PIN_GRID)).
  - intros [Hsel ->]. simpl. rewrite Hsel. simpl. rewrite Hsel. by simpl.
  - by intros _.
Qed.

Lemma move_records_the_last_target_witness :
  (Rules.apply (BSMoveEvent (4, 4) SHIP_GRID)
     (Rules.apply (BSMoveEvent (0, 9) SHIP_GRID) worldAtEdge).2).2
  = (Rules.apply (BSMoveEvent (4, 4) SHIP_GRID) worldAtEdge).2
  /\
  Rules.apply (BSMoveEvent (4, 4) PIN_GRID) worldAtEdge = (([], []), worldAtEdge).
Proof.
  split.
  - destruct (move_records_the_last_target worldAtEdge SHIP_GRID (0, 9) (4, 4))
      as [_ H].
    destruct H as (_ & _ & Hlast); [vm_compute; split; reflexivity|exact Hlast].
  - apply (proj1 (move_records_the_last_target worldAtEdge PIN_GRID (4, 4) (4, 4))).
    vm_compute. by right.
Defined.

(** ** The rules over a whole game *)

Lemma afterSettle_next s :
  (exists s', (Rules.afterSettle s).2 = SHIP_CRAFTING s' /\
              sc_shipSizeSequence s' = sc_shipSizeSequence s /\
              (sc_player s = P2 -> sc_player s' = P2)) \/
  ((Rules.afterSettle s).2 = BATTLE newBattleState /\
   sc_player s = P2 /\
   sc_shipSizeIterator s = length (sc_shipSizeSequence s)).
Proof.
  unfold Rules.afterSettle, nextShipSize.
  destruct (decide (sc_shipSizeIterator s = length (sc_shipSizeSequence s))) as [Hend|Hmore].
  - destruct (sc_player s) eqn:Ep; [|by right].
    left. simpl. destruct (decide _); simpl; eexists; (split; [done|]); by split.
  - left. simpl. eexists. split; [done|]. by split.
Qed.

Lemma unselect_crafting_next s g :
  (exists s', (Rules.processUnselect (SHIP_CRAFTING s, g)).2.1 = SHIP_CRAFTING s' /\
              sc_shipSizeSequence s' = sc_shipSizeSequence s /\
              (sc_player s = P2 -> sc_player s' = P2)) \/
  ((Rules.processUnselect (SHIP_CRAFTING s, g)).2.1 = BATTLE newBattleState /\
   sc_player s = P2).
Proof.
  unfold Rules.processUnselect.
  destruct (sc_selected s); [|left; by eexists].
  destruct (sc_pos s) as [pos|]; [|left; by eexists].
  destruct (Game.settleShip _ _ _ _ _) as [[e|u] g']; [left; by eexists|].
  pose proof (afterSettle_next (sc_setSelected false s)) as Hnext.
  destruct (Rules.afterSettle _) as [cmds st']. simpl in *.
  destruct Hnext as [(s' & -> & Hseq & Hp)|(-> & Hp & _)]; [left; by eexists|by right].
Qed.

Lemma apply_controls ev w :
  (Rules.apply ev w).1.2 = controlsFor (phase w.1) (phase (Rules.apply ev w).2.1).
Proof.
  destruct w as [[s|s|s] g].
  - destruct ev as [| |to loc|]; unfold Rules.apply; cbn [fst].
    + simpl. destruct (sc_selected s); simpl; by rewrite generateControls_same_player.
    + pose proof (unselect_crafting_next s g) as Hnext.
      destruct (Rules.processUnselect (SHIP_CRAFTING s, g)) as [cmds [st' g']].
      simpl in *. rewrite generateControls_crafting.
      destruct Hnext as [(s' & -> & _ & Hp)|(-> & Hp)]; simpl.
      * case_decide as Hd; [|done]. destruct Hd as [H2 H1]. rewrite (Hp H2) in H1. done.
      * by rewrite decide_True.
    + simpl. destruct (decide (loc = SHIP_GRID)), (sc_selected s); simpl;
        by rewrite generateControls_same_player.
    + simpl. destruct (sc_selected s); simpl; by rewrite generateControls_same_player.
  - destruct ev as [| |to loc|]; unfold Rules.apply; simpl.
    + by destruct (bt_selected s).
    + destruct (bt_selected s); [|done]. destruct (bt_pos s); [|done].
      by destruct (Game.attack _ _ _) as [[e|[]] g'].
    + by destruct (decide (loc = PIN_GRID)), (bt_selected s).
    + done.
  - by destruct ev.
Qed.

(** The controls of a step follow from the phases before and after it:
    rotation is disabled when the crafting phase gives way to the battle,
    selection, unselection and move when the battle gives way to the end of
    the game, and no control is emitted by any other step. *)
Theorem controls_follow_the_phase (ev : BattleShipEvent) (w : Rules.World) :
  (Rules.apply ev w).1.2
  = match phase w.1, phase (Rules.apply ev w).2.1 with
    | 0%nat, 1%nat => [DisableRotation]
    | 1%nat, 2%nat => [DisableSelection; DisableUnselection; DisableMove]
    | _, _ => []
    end.
Proof. apply apply_controls. Qed.

(** The game is touched only by an unselect that commits: a step that
    changes the game is an unselect taken with the piece selected and a
    position pending. *)
Theorem game_changes_only_at_commit (ev : BattleShipEvent) (w : Rules.World) :
  (Rules.apply ev w).2.2 <> w.2 ->
  ev = BSUnselectEvent /\
  match w.1 with
  | SHIP_CRAFTING s => sc_selected s = true /\ is_Some (sc_pos s)
  | BATTLE s => bt_selected s = true /\ is_Some (bt_pos s)
  | GAME_OVER _ => False
  end.
Proof.
  destruct w as [st g]. destruct ev as [| |to loc|]; unfold Rules.apply; simpl.
  - intros Hdiff. exfalso. apply Hdiff.
    destruct st as [s|s|s]; simpl; [by destruct (sc_selected s)
                                    |by destruct (bt_selected s)|done].
  - intros Hdiff. split; [done|].
    destruct st as [s|s|s]; simpl in *.
    + destruct (sc_selected s); [|done]. destruct (sc_pos s); [eauto|done].
    + destruct (bt_selected s); [|done]. destruct (bt_pos s); [eauto|done].
    + done.
  - intros Hdiff. exfalso. apply Hdiff.
    destruct st as [s|s|s]; simpl; [|by destruct (decide (loc = PIN_GRID)), (bt_selected s)
                                    |done].
    by destruct (decide (loc = SHIP_GRID)), (sc_selected s).
  - intros Hdiff. exfalso. apply Hdiff.
    destruct st as [s|s|s]; simpl; [by destruct (sc_selected s)|done|done].
Qed.

Lemma game_changes_only_at_commit_witness :
  (Rules.apply BSUnselectEvent
     (Rules.applyAll [BSSelectEvent; BSMoveEvent (0, 0) SHIP_GRID] initialWorld).2).2.2
  <> initialWorld.2 /\
  BSUnselectEvent = BSUnselectEvent.
Proof.
  assert (Hdiff : (Rules.apply BSUnselectEvent
                     (Rules.applyAll [BSSelectEvent; BSMoveEvent (0, 0) SHIP_GRID]
                        initialWorld).2).2.2
                  <> (Rules.applyAll [BSSelectEvent; BSMoveEvent (0, 0) SHIP_GRID]
                        initialWorld).2.2).
  { vm_compute. intros H. discriminate H. }
  split; [exact Hdiff|].
  exact (proj1 (game_changes_only_at_commit BSUnselectEvent _ Hdiff)).
Defined.

Ltac noMakeShip H :=
  repeat (apply elem_of_cons in H as [H|H]; [discriminate H|]);
  by apply elem_of_nil in H.

Lemma afterSettle_announces s :
  (sc_shipSizeIterator s <= length (sc_shipSizeSequence s))%nat ->
  cursorOk (Rules.afterSettle s).2 /\
  forall size, MakeShipCmd size ∈ (Rules.afterSettle s).1 ->
    size ∈ sc_shipSizeSequence s.
Proof.
  intros Hcur. unfold Rules.afterSettle, nextShipSize.
  destruct (decide (sc_shipSizeIterator s = length (sc_shipSizeSequence s))) as [Hend|Hmore].
  - destruct (sc_player s) eqn:Ep; [|split; [done|intros size H; noMakeShip H]].
    simpl. destruct (decide (0%nat = length (sc_shipSizeSequence s))) as [Hnil|Hsome]; simpl.
    + split; [lia|]. intros size H. noMakeShip H.
    + split; [lia|]. intros size H.
      apply elem_of_cons in H as [H|H]; [discriminate H|].
      apply list_elem_of_singleton in H. injection H as ->.
      destruct (lookup_lt_is_Some_2 (sc_shipSizeSequence s) 0%nat) as [z Hz]; [lia|].
      rewrite Hz. simpl. by eapply list_elem_of_lookup_2.
  - simpl. split; [lia|]. intros size H.
    apply list_elem_of_singleton in H. injection H as ->.
    destruct (lookup_lt_is_Some_2 (sc_shipSizeSequence s) (sc_shipSizeIterator s))
      as [z Hz]; [lia|].
    rewrite Hz. simpl. by eapply list_elem_of_lookup_2.
Qed.

(** The cursor of the crafting phase never passes the end of the size
    sequence, the sequence itself never changes, and every size a step
    announces with a make-ship command is an entry of the sequence, never
    a read past its end. *)
Theorem announced_sizes_come_from_the_sequence (ev : BattleShipEvent) (w : Rules.World) :
  cursorOk w.1 ->
  cursorOk (Rules.apply ev w).2.1 /\
  (forall size, MakeShipCmd size ∈ (Rules.apply ev w).1.1 ->
     size ∈ sequenceOf w.1) /\
  (forall s', (Rules.apply ev w).2.1 = SHIP_CRAFTING s' ->
     sc_shipSizeSequence s' = sequenceOf w.1).
Proof.
  destruct w as [st g]. destruct st as [s|s|s]; simpl; intros Hcur.
  - destruct ev as [| |to loc|]; unfold Rules.apply; simpl.
    + destruct (sc_selected s); simpl;
        (split; [done|]; split; [intros size H; noMakeShip H|by intros s' [= <-]]).
    + destruct (sc_selected s); simpl;
        [|split; [done|]; split; [intros size H; noMakeShip H|by intros s' [= <-]]].
      destruct (sc_pos s) as [pos|]; simpl;
        [|split; [done|]; split; [intros size H; noMakeShip H|by intros s' [= <-]]].
      destruct (Game.settleShip _ _ _ _ _) as [[e|u] g']; simpl;
        [split; [done|]; split; [intros size H; noMakeShip H|by intros s' [= <-]]|].
      pose proof (afterSettle_announces (sc_setSelected false s) Hcur) as [Hc Hann].
      pose proof (afterSettle_next (sc_setSelected false s)) as Hnext.
      destruct (Rules.afterSettle _) as [cmds st']. simpl in *.
      split; [done|]. split.
      * intros size H. apply elem_of_cons in H as [H|H]; [discriminate H|]. by apply Hann.
      * intros s' ->.
        destruct Hnext as [(s'' & [= <-] & Hseq & _)|(Hb & _)]; [done|discriminate Hb].
    + destruct (decide (loc = SHIP_GRID)), (sc_selected s); simpl;
        (split; [done|]; split; [intros size H; noMakeShip H|by intros s' [= <-]]).
    + destruct (sc_selected s); simpl;
        (split; [done|]; split; [intros size H; noMakeShip H|by intros s' [= <-]]).
  - destruct ev as [| |to loc|]; unfold Rules.apply; simpl.
    + destruct (bt_selected s); simpl;
        (split; [done|]; split; [intros size H; noMakeShip H|done]).
    + destruct (bt_selected s); simpl;
        [|split; [done|]; split; [intros size H; noMakeShip H|done]].
      destruct (bt_pos s); simpl;
        [|split; [done|]; split; [intros size H; noMakeShip H|done]].
      destruct (Game.attack _ _ _) as [[e|[]] g']; simpl;
        (split; [done|]; split; [intros size H; noMakeShip H|done]).
    + destruct (decide (loc = PIN_GRID)), (bt_selected s); simpl;
        (split; [done|]; split; [intros size H; noMakeShip H|done]).
    + split; [done|]; split; [intros size H; noMakeShip H|done].
  - destruct ev; unfold Rules.apply; simpl;
      (split; [done|]; split; [intros size H; noMakeShip H|done]).
Qed.

Lemma announced_sizes_come_from_the_sequence_witness :
  cursorOk (Rules.apply BSUnselectEvent
              (Rules.applyAll [BSSelectEvent; BSMoveEvent (0, 0) SHIP_GRID]
                 initialWorld).2).2.1 /\
  MakeShipCmd (Some 1)
    ∈ (Rules.apply BSUnselectEvent
         (Rules.applyAll [BSSelectEvent; BSMoveEvent (0, 0) SHIP_GRID] initialWorld).2).1.1.
Proof.
  split.
  - apply (announced_sizes_come_from_the_sequence BSUnselectEvent
             (Rules.applyAll [BSSelectEvent; BSMoveEvent (0, 0) SHIP_GRID]
                initialWorld).2).
    vm_compute. lia.
  - vm_compute. right. left.
Defined.

Lemma applyAll_invariant (I : Rules.World -> Prop) :
  (forall ev w, I w -> I (Rules.apply ev w).2) ->
  forall events w, I w -> I (Rules.applyAll events w).2.
Proof.
  intros Hstep. induction events as [|ev rest IH]; intros w Hw; [done|].
  simpl. pose proof (Hstep ev w Hw) as H1.
  destruct (Rules.apply ev w) as [[cmds ctl] w1].
  pose proof (IH w1 H1) as H2.
  by destruct (Rules.applyAll rest w1) as [cmds' w2].
Qed.

Lemma apply_firstPlayerOnly ev w :
  firstPlayerOnly w.1 -> firstPlayerOnly (Rules.apply ev w).2.1.
Proof.
  destruct w as [[s|s|s] g]; simpl; intros Hp.
  - destruct ev as [| |to loc|]; unfold Rules.apply.
    + simpl. by destruct (sc_selected s).
    + pose proof (unselect_crafting_next s g) as Hnext.
      destruct (Rules.processUnselect (SHIP_CRAFTING s, g)) as [cmds [st' g']].
      simpl in *. by destruct Hnext as [(s' & -> & _)|(-> & _)].
    + simpl. by destruct (decide (loc = SHIP_GRID)), (sc_selected s).
    + simpl. by destruct (sc_selected s).
  - destruct ev as [| |to loc|]; unfold Rules.apply; simpl.
    + by destruct (bt_selected s).
    + destruct (bt_selected s); [|done]. destruct (bt_pos s); [|done].
      by destruct (Game.attack _ _ _) as [[e|[]] g'].
    + by destruct (decide (loc = PIN_GRID)), (bt_selected s).
    + done.
  - by destruct ev.
Qed.

(** From the crafting phase on, whatever the events, the player recorded by
    a battle state is player 1, and so is the winner recorded by a game-over
    state: the turn never passes to player 2. *)
Theorem only_player_one_attacks (events : list BattleShipEvent) (s : ShipCraftState)
    (g : BattleShipGame) :
  match (Rules.applyAll events (SHIP_CRAFTING s, g)).2.1 with
  | SHIP_CRAFTING _ => True
  | BATTLE b => bt_player b = P1
  | GAME_OVER o => go_player o = P1
  end.
Proof.
  apply (applyAll_invariant (fun w => firstPlayerOnly w.1));
    [apply apply_firstPlayerOnly|done].
Qed.

Lemma afloat_counter p : playerOk p -> None ∈ settledSizes p -> 1 <= shipCount p.
Proof.
  intros [_ Hcount] Hnone. unfold settledSizes in Hnone.
  apply list_elem_of_fmap in Hnone as (ship & Hsize & Hin).
  assert (Hlt : (length (filter (fun s => sunk s = true) (ships p))
                 < length (ships p))%nat).
  { eapply length_filter_lt; [exact Hin|]. unfold sunk. by rewrite <- Hsize. }
  lia.
Qed.

Lemma attack_never_wins g target r g' :
  gameSound g -> None ∈ settledSizes (p2 g) ->
  Game.attack P1 target g = (r, g') ->
  None ∈ settledSizes (p2 g') /\ (forall won, r = inr won -> won = false).
Proof.
  intros Hsound Hnone Hrun.
  assert (Hsound' : gameSound g').
  { pose proof (attack_sound P1 target g Hsound) as H. by rewrite Hrun in H. }
  pose proof (proj1 (gameSound_seats g) Hsound) as (Hw & _ & _).
  pose proof (Game_attack_roster g g' P1 target r Hw Hrun) as (_ & _ & Hsizes & _).
  simpl in Hsizes.
  assert (Hnone' : None ∈ settledSizes (p2 g')) by (by rewrite Hsizes).
  split; [done|]. intros won ->.
  pose proof (proj1 (gameSound_seats g') Hsound') as (_ & [_ Hok2] & _).
  pose proof (afloat_counter (p2 g') Hok2 Hnone') as Hafloat.
  rewrite Game_attack_eq in Hrun. cbn zeta in Hrun.
  destruct (Board.attack _ _) as [[e|[[shipId part]|]] b']; [done| |by injection Hrun].
  destruct (Player.receiveDamage _ _ _) as [[e|d] p']; [done|].
  injection Hrun as <- <-. simpl in Hafloat. lia.
Qed.

Lemma apply_unsinkable ev w : unsinkable w -> unsinkable (Rules.apply ev w).2.
Proof.
  destruct w as [[s|s|s] g]; intros [Hsound Hst]; simpl in *; [| |done].
  - destruct ev as [| |to loc|]; unfold Rules.apply.
    + simpl. by destruct (sc_selected s).
    + cbn [fst snd]. unfold Rules.processUnselect.
      destruct (sc_selected s); [|done].
      destruct (sc_pos s) as [pos|]; [|done].
      pose proof (settleShip_sound (sc_player s)
                    (mjoin (sc_shipSizeSequence s !! sc_shipSizeIterator s))
                    (sc_orientation s) pos g Hsound) as Hsound'.
      destruct (Game.settleShip _ _ _ _ _) as [[e|u] g'] eqn:Erun; [done|].
      pose proof (afterSettle_next (sc_setSelected false s)) as Hnext.
      destruct (Rules.afterSettle _) as [cmds st']. simpl in *.
      destruct Hnext as [(s' & -> & _)|(-> & Hp & Hend)]; [done|].
      split; [done|]. split; [done|].
      pose proof (proj1 (gameSound_seats g) Hsound) as (Hw & _ & _).
      rewrite Game_settleShip_eq in Erun by done. cbn zeta in Erun.
      rewrite Hp in Erun. simpl in Erun.
      destruct (Board.settleShip _ _) as [[e|[]] b']; [done|].
      injection Erun as _ Hg. rewrite <- Hg. unfold settledSizes. simpl.
      rewrite fmap_app. apply elem_of_app. right. simpl.
      rewrite (proj2 (lookup_ge_None _ _)) by lia. by left.
    + simpl. by destruct (decide (loc = SHIP_GRID)), (sc_selected s).
    + simpl. by destruct (sc_selected s).
  - destruct Hst as [Hp Hnone].
    destruct ev as [| |to loc|]; unfold Rules.apply.
    + simpl. by destruct (bt_selected s).
    + cbn [fst snd]. unfold Rules.processUnselect.
      destruct (bt_selected s); [|done].
      destruct (bt_pos s) as [pos|]; [|done].
      rewrite Hp.
      pose proof (attack_sound P1 pos g Hsound) as Hsound'.
      destruct (Game.attack P1 pos g) as [r g'] eqn:Erun.
      destruct (attack_never_wins g pos r g' Hsound Hnone Erun) as [Hnone' Hlose].
      destruct r as [e|won]; [done|].
      rewrite (Hlose won eq_refl). done.
    + simpl. by destruct (decide (loc = PIN_GRID)), (bt_selected s).
    + done.
Qed.

(** Starting in the crafting phase over a game reached through its
    operations, no sequence of events ever leads to the game-over phase.
    The commit that ends player 2's crafting always settles a ship without a
    size, which covers no cell and cannot be sunk; player 2's counter of
    live ships therefore never reaches 0, and player 1 is the only one to
    attack. *)
Theorem game_over_is_never_reached (events : list BattleShipEvent) (s : ShipCraftState)
    (g : BattleShipGame) :
  reachable g ->
  phase (Rules.applyAll events (SHIP_CRAFTING s, g)).2.1 <> 2%nat.
Proof.
  intros Hreach.
  assert (Hinv : unsinkable (Rules.applyAll events (SHIP_CRAFTING s, g)).2).
  { apply applyAll_invariant; [apply apply_unsinkable|].
    split; [by apply reachable_sound|done]. }
  destruct Hinv as [_ Hst].
  by destruct ((Rules.applyAll events (SHIP_CRAFTING s, g)).2.1).
Qed.

Lemma game_over_is_never_reached_witness :
  reachable (newGame 10) /\
  phase (Rules.applyAll (place (0, 0) ++ place (2, 2)) initialWorld).2.1 <> 2%nat.
Proof.
  split; [apply reach_new|].
  apply (game_over_is_never_reached (place (0, 0) ++ place (2, 2))
           (craftingOf initialWorld.1) (newGame 10)).
  apply reach_new.
Defined.

Lemma updateAll_invariant (I : BattleShip.State -> Prop) :
  (forall ev st, I st -> I (BattleShip.update ev st).2) ->
  forall events st, I st -> I (BattleShip.updateAll events st).
Proof.
  intros Hstep. induction events as [|ev rest IH]; intros st Hst; [done|].
  simpl. apply IH. by apply Hstep.
Qed.

Lemma update_armed ev st :
  unsinkable st.1 /\ armed st ->
  unsinkable (BattleShip.update ev st).2.1 /\ armed (BattleShip.update ev st).2.
Proof.
  destruct st as [w h]. intros [Hun (Hsel & Hunsel & Hmove & Hrot)]. simpl in *.
  unfold BattleShip.update. simpl.
  pose proof (apply_unsinkable ev w Hun) as Hun'.
  pose proof (apply_controls ev w) as Hctl.
  pose proof (apply_phase_step ev w) as Hstep.
  destruct (Rules.apply ev w) as [[cmds controls] w']. simpl in *.
  split; [done|]. subst controls.
  assert (Hnot2 : phase w'.1 <> 2%nat).
  { destruct Hun' as [_ H]. by destruct (w'.1). }
  assert (Hnot2' : phase w.1 <> 2%nat).
  { destruct Hun as [_ H]. by destruct (w.1). }
  assert (Hle : (phase w.1 <= 2)%nat) by (destruct (w.1); simpl; lia).
  unfold armed. simpl.
  destruct Hstep as [Hs|Hs]; rewrite Hs in *.
  - assert (Hnone : controlsFor (phase w.1) (phase w.1) = []).
    { by destruct (phase w.1) as [|[|[|n]]]. }
    rewrite Hnone. simpl. done.
  - destruct (phase w.1) as [|[|n]]; [|done|lia].
    simpl. repeat split; try done; intros; lia.
Qed.

(** After [init()] and any sequence of updates the sensor holds its select,
    unselect and move handlers, and holds its rotate handler exactly while
    the rules are in the crafting phase. *)
Theorem rotation_is_armed_exactly_while_crafting (settings : BattleShipSettings)
    (events : list BattleShipEvent) :
  match BattleShip.init (BattleShip.new settings) with
  | Some (_, st0) =>
      selectHandler (BattleShip.updateAll events st0).2 = true /\
      unselectHandler (BattleShip.updateAll events st0).2 = true /\
      moveHandler (BattleShip.updateAll events st0).2 = true /\
      (rotateHandler (BattleShip.updateAll events st0).2 = true
       <-> phase (BattleShip.updateAll events st0).1.1 = 0%nat)
  | None => False
  end.
Proof.
  unfold BattleShip.init, BattleShip.new, Rules.init, Rules.new, Rules.initView.
  cbn [fst snd].
  destruct (nextShipSize _) as [size s'].
  apply (updateAll_invariant (fun st => unsinkable st.1 /\ armed st)).
  - intros ev st. apply update_armed.
  - split; [|by repeat split].
    split; [apply newGame_sound|done].
Qed.

(** ** Settings *)

Lemma sequence_from (sizes counts : list Z) (k : nat) :
  length (concat (imap (fun i c => replicate (Z.to_nat c) (sizes !! (k + i)%nat)) counts))
  = sum_list_with Z.to_nat counts /\
  forall o,
    o ∈ concat (imap (fun i c => replicate (Z.to_nat c) (sizes !! (k + i)%nat)) counts)
    <-> exists t c, counts !! t = Some c /\ 0 < c /\ o = sizes !! (k + t)%nat.
Proof.
  revert k. induction counts as [|c counts IH]; intros k.
  - split; [done|]. intros o. split; [intros H; by apply elem_of_nil in H|].
    by intros (t & c & Ht & _).
  - rewrite imap_cons. simpl.
    assert (Hext : imap ((fun i c => replicate (Z.to_nat c) (sizes !! (k + i)%nat)) ∘ S) counts
                   = imap (fun i c => replicate (Z.to_nat c) (sizes !! (S k + i)%nat)) counts).
    { apply imap_ext. intros i x _. simpl. by replace (k + S i)%nat with (S (k + i)) by lia. }
    rewrite Hext. destruct (IH (S k)) as [Hlen Hmem].
    split; [by rewrite length_app, length_replicate, Hlen|].
    intros o. rewrite elem_of_app, elem_of_replicate, Hmem. split.
    + intros [[-> Hc]|(t & c' & Ht & Hc' & ->)].
      * exists 0%nat, c. rewrite Nat.add_0_r. split; [done|]. split; [lia|done].
      * exists (S t), c'. split; [done|]. split; [done|]. f_equal. lia.
    + intros ([|t] & c' & Ht & Hc' & ->); simpl in Ht.
      * injection Ht as ->. left. rewrite Nat.add_0_r. split; [done|lia].
      * right. exists t, c'. split; [done|]. split; [done|]. f_equal. lia.
Qed.

Lemma forallb_elem {A} (f : A -> bool) (l : list A) x :
  forallb f l = true -> x ∈ l -> f x = true.
Proof.
  induction l as [|y l IH]; simpl; intros Hall Hin; [by apply elem_of_nil in Hin|].
  apply andb_true_iff in Hall as [Hy Hl].
  apply elem_of_cons in Hin as [->|Hin]; auto.
Qed.

Lemma rem_odd z : negb (Z.rem z 2 =? 0) = true -> Z.odd z = true.
Proof.
  intros Hrem. destruct (Z.odd z) eqn:Eo; [done|]. exfalso.
  assert (Heven : Z.even z = true) by (by rewrite <- Z.negb_odd, Eo).
  apply Z.even_spec in Heven as [k ->].
  replace (2 * k) with (k * 2) in Hrem by lia.
  rewrite Z.rem_mul in Hrem by lia. done.
Qed.

(** The size sequence has as many entries as the counts of the ship types
    that are positive add up to, and its entries are exactly the sizes read
    for the ship types of positive count: a number of the configured sizes,
    or undefined for a ship type past the end of the sizes.  With a size for
    every ship type no entry is undefined, and when the constructor
    accepted the settings every number in the sequence is odd. *)
Theorem size_sequence_from_settings (s : BattleShipSettings) :
  length (buildShipSizeSequence s) = sum_list_with Z.to_nat (shipCountByType s) /\
  (forall o, o ∈ buildShipSizeSequence s <->
     exists t c, shipCountByType s !! t = Some c /\ 0 < c /\ o = shipSizeByType s !! t) /\
  ((length (shipCountByType s) <= length (shipSizeByType s))%nat ->
   forall o, o ∈ buildShipSizeSequence s -> exists z, o = Some z /\ z ∈ shipSizeByType s) /\
  (constructible s = true ->
   forall z, Some z ∈ buildShipSizeSequence s -> Z.odd z = true).
Proof.
  destruct (sequence_from (shipSizeByType s) (shipCountByType s) 0) as [Hlen Hmem].
  unfold buildShipSizeSequence. simpl in *.
  split; [done|]. split; [done|]. split.
  - intros Hle o Ho. apply Hmem in Ho as (t & c & Ht & _ & ->).
    apply lookup_lt_Some in Ht.
    destruct (lookup_lt_is_Some_2 (shipSizeByType s) t) as [z Hz]; [lia|].
    exists z. split; [done|]. by eapply list_elem_of_lookup_2.
  - intros Hok z Hz. apply Hmem in Hz as (t & c & _ & _ & Hz).
    apply rem_odd. apply (forallb_elem _ _ z Hok). by eapply list_elem_of_lookup_2.
Qed.

Lemma size_sequence_from_settings_witness :
  length (buildShipSizeSequence defaultSettings) = 5%nat /\
  (forall o, o ∈ buildShipSizeSequence defaultSettings ->
     exists z, o = Some z /\ z ∈ shipSizeByType defaultSettings) /\
  None ∈ buildShipSizeSequence
           {| settings_boardSize := 10; shipCountByType := [1; 1]; shipSizeByType := [1] |}.
Proof.
  destruct (size_sequence_from_settings defaultSettings) as (Hlen & _ & Hdef & _).
  split; [exact Hlen|]. split; [apply Hdef; simpl; lia|].
  apply (proj1 (proj2 (size_sequence_from_settings
           {| settings_boardSize := 10; shipCountByType := [1; 1];
              shipSizeByType := [1] |}))).
  exists 1%nat, 1. split; [reflexivity|]. split; [lia|reflexivity].
Defined.

(** ** Ships without a size *)

(** A ship whose size is undefined passes every part test: damaging any
    part that is not negative and not yet marked succeeds, marks the part,
    raises the damage counter and reports the ship not destroyed, and the
    owner's counter of live ships is left alone; a part already marked is
    still refused. *)
Theorem sizeless_ship_is_never_destroyed (p : BattleShipPlayer) (shipId part : Z)
    (ship : ShipPiece) :
  0 <= shipId -> ships p !! Z.to_nat shipId = Some ship ->
  ship_size ship = None -> 0 <= part ->
  (default false (ship_damaged ship !! Z.to_nat part) = true ->
   Player.receiveDamage shipId part p = (inl (AlreadyDamaged part shipId), p)) /\
  (default false (ship_damaged ship !! Z.to_nat part) = false ->
   exists p',
     Player.receiveDamage shipId part p = (inr false, p') /\
     shipCount p' = shipCount p /\
     ships p' = <[Z.to_nat shipId := damagePart (Z.to_nat part) ship]> (ships p) /\
     ship_damaged (damagePart (Z.to_nat part) ship) !! Z.to_nat part = Some true /\
     ship_damage (damagePart (Z.to_nat part) ship) = ship_damage ship + 1).
Proof.
  intros Hid Hship Hsize Hpart.
  pose proof (lookup_lt_Some _ _ _ Hship) as Hlt.
  rewrite receiveDamage_eq.
  rewrite (proj2 (orb_false_iff _ _)) by (split; lia).
  rewrite Hship, Hsize. simpl.
  replace (part <? 0) with false by lia. simpl.
  split; intros Hflag; rewrite Hflag; [done|].
  eexists. split; [done|]. simpl. split; [done|]. split; [done|].
  split; [apply assignFlag_lookup|done].
Qed.

Lemma sizeless_ship_is_never_destroyed_witness :
  exists p',
    Player.receiveDamage 0 7
      {| playerId := P2; ships := [newShipPiece 0 None HORIZONTAL (0, 0)];
         shipBoard := BoardOfP2; pinBoard := BoardOfP1; shipCount := 1 |}
    = (inr false, p') /\ shipCount p' = 1.
Proof.
  destruct (sizeless_ship_is_never_destroyed
              {| playerId := P2; ships := [newShipPiece 0 None HORIZONTAL (0, 0)];
                 shipBoard := BoardOfP2; pinBoard := BoardOfP1; shipCount := 1 |}
              0 7 (newShipPiece 0 None HORIZONTAL (0, 0)))
    as [_ H]; [lia|reflexivity|reflexivity|lia|].
  destruct H as (p' & Hrun & Hcount & _); [reflexivity|].
  exists p'. split; [exact Hrun|exact Hcount].
Defined.

(** ** The from-origin board *)

Lemma loops_cases ship (fx fy : option Z -> option Z) (cell : option Z -> BattleShipBoardCell)
    (ps : list (option Z)) b r b' :
  (exec forEach ps (fun pos => checkFree ship (fx pos) (fy pos));
   forEach ps (markBody fx fy cell)) b = (r, b') ->
  match r with
  | inl e => b' = b
  | inr _ =>
      boardSize b' = boardSize b /\
      (forall pos, pos ∈ ps ->
         exists x0 y0 c,
           fx pos = Some x0 /\ fy pos = Some y0 /\
           cellAt b x0 y0 = Some c /\ isShip c = false) /\
      (forall x y, cellAt b' x y = from_option Some (cellAt b x y) (written fx fy cell ps x y))
  end.
Proof.
  unfold bind.
  assert (Hro : forall pos, readOnly (checkFree ship (fx pos) (fy pos))).
  { intros pos. apply checkFree_readOnly. }
  destruct (forEach ps (fun pos => checkFree ship (fx pos) (fy pos)) b)
    as [[e|[]] b1] eqn:Ec.
  - pose proof (forEach_readOnly _ _ Hro _ _ _ Ec) as ->. by intros [= <- <-].
  - pose proof (forEach_readOnly _ _ Hro _ _ _ Ec) as ->.
    assert (Hall : forall pos, pos ∈ ps ->
      exists x0 y0 c,
        fx pos = Some x0 /\ fy pos = Some y0 /\ cellAt b x0 y0 = Some c /\ isShip c = false).
    { intros pos Hpos.
      pose proof (forEach_readOnly_all _ _ _ _ Hro Ec pos Hpos) as E1.
      by apply checkFree_ok in E1. }
    destruct (markLoop_runs fx fy cell ps b) as (b2 & Hrun & Hsize & Hcells).
    { intros pos Hpos. destruct (Hall pos Hpos) as (x0 & y0 & c & Hx & Hy & Hc & _).
      exists x0, y0. repeat split; try done. by eapply cellAt_line. }
    rewrite Hrun. by intros [= <- <-].
Qed.

Lemma origin_settleShip_unfold ship :
  Origin.settleShip ship =
  (do b <~ get;
   if anchorOut b (ship_position ship)
   then throw (PositionOutOfBounds (ship_id ship))
   else if Origin.extentOut (centre (ship_orientation ship) (ship_position ship))
             (ship_size ship) (boardSize b)
   then throw (SizeOutOfBounds (ship_id ship) (ship_size ship))
   else
     exec forEach (Origin.run (centre (ship_orientation ship) (ship_position ship))
                     (ship_size ship))
       (fun pos => checkFree ship
                     (lineOf (ship_orientation ship) (ship_position ship).1 pos)
                     (columnOf (ship_orientation ship) (ship_position ship).2 pos));
     forEach (Origin.run (centre (ship_orientation ship) (ship_position ship))
                (ship_size ship))
       (markBody (lineOf (ship_orientation ship) (ship_position ship).1)
                 (columnOf (ship_orientation ship) (ship_position ship).2)
                 (shipCell ship))).
Proof.
  unfold Origin.settleShip, anchorOut.
  destruct (ship_position ship) as [x y], (ship_orientation ship); reflexivity.
Qed.

(** The from-origin [settleShip] leaves the board as it was whenever it
    fails.  When it succeeds the board keeps its size and the cell at index
    [k] of the ship, counted from the anchor, is an unattacked ship cell with
    the ship's id and its board coordinate along the axis as the part. *)
Theorem origin_settle_outcomes (ship : ShipPiece) (b b' : BattleShipBoard)
    (r : Failure + unit) :
  Origin.settleShip ship b = (r, b') ->
  match r with
  | inl _ => b' = b
  | inr _ =>
      boardSize b' = boardSize b /\
      forall s k, ship_size ship = Some s -> 0 <= k < s ->
        cellAt b' (Origin.runCell (ship_orientation ship) (ship_position ship) k).1
                  (Origin.runCell (ship_orientation ship) (ship_position ship) k).2
        = Some (ShipBoardCell (ship_id ship)
                  (centre (ship_orientation ship) (ship_position ship) + k) false)
  end.
Proof.
  rewrite origin_settleShip_unfold. unfold bind at 1, get.
  destruct (anchorOut b (ship_position ship)); [by intros [= <- <-]|].
  destruct (Origin.extentOut _ _ _); [by intros [= <- <-]|].
  intros Hrun. apply loops_cases in Hrun. destruct r as [e|u]; [done|].
  destruct Hrun as (Hsize & _ & Hcells). split; [done|].
  intros s k Hs Hk. rewrite Hcells.
  set (p := centre (ship_orientation ship) (ship_position ship) + k).
  rewrite (written_unique _ _ _ _ _ _ (Some p)); [done| | | |].
  - unfold Origin.run. rewrite Hs. apply list_elem_of_fmap_2, elem_of_seqZ.
    unfold p. lia.
  - unfold p, centre, Origin.runCell. by destruct (ship_orientation ship).
  - unfold p, centre, Origin.runCell. by destruct (ship_orientation ship).
  - intros q _. unfold p, centre, Origin.runCell.
    destruct (ship_orientation ship); simpl; congruence.
Qed.

Lemma origin_settle_outcomes_witness :
  cellAt (Origin.settleShip (newShipPiece 0 (Some 3) HORIZONTAL (0, 5)) (newBoard 10)).2 0 7
  = Some (ShipBoardCell 0 7 false).
Proof.
  pose proof (origin_settle_outcomes (newShipPiece 0 (Some 3) HORIZONTAL (0, 5))
                (newBoard 10)
                (Origin.settleShip (newShipPiece 0 (Some 3) HORIZONTAL (0, 5))
                   (newBoard 10)).2
                (inr tt)) as H.
  destruct H as [_ Hmarks]; [vm_compute; reflexivity|].
  apply (Hmarks 3 2); [reflexivity|lia].
Defined.

(** The from-origin [settleShip] refuses, with an out-of-bounds error, every
    ship that would reach the last line or column along its axis; a ship of
    positive size that settles ends at least one cell before it. *)
Theorem origin_ship_stops_short_of_the_border (ship : ShipPiece) (b : BattleShipBoard)
    (s : Z) :
  ship_size ship = Some s ->
  (boardSize b <= centre (ship_orientation ship) (ship_position ship) + s ->
   exists e, Origin.settleShip ship b = (inl e, b) /\ isOutOfBounds e = true) /\
  (forall b', Origin.settleShip ship b = (inr tt, b') ->
     forall k, 0 <= k < s ->
       centre (ship_orientation ship) (ship_position ship) + k < boardSize b - 1).
Proof.
  intros Hs. rewrite origin_settleShip_unfold. unfold bind at 1, bind at 2, get.
  destruct (anchorOut b (ship_position ship)).
  { split; [intros _; by eexists|intros b' H; discriminate H]. }
  rewrite Hs. unfold Origin.extentOut.
  destruct (centre (ship_orientation ship) (ship_position ship) + s >=? boardSize b)
    eqn:Ee.
  - split; [intros _; by eexists|intros b' H; discriminate H].
  - split; [lia|]. intros b' _ k Hk. lia.
Qed.

Lemma origin_ship_stops_short_of_the_border_witness :
  exists e,
    Origin.settleShip (newShipPiece 0 (Some 1) HORIZONTAL (1, 1)) (newBoard 2)
    = (inl e, newBoard 2) /\ isOutOfBounds e = true.
Proof.
  apply (proj1 (origin_ship_stops_short_of_the_border
                  (newShipPiece 0 (Some 1) HORIZONTAL (1, 1)) (newBoard 2) 1 eq_refl)).
  vm_compute. discriminate.
Defined.

(** ** A failed attack *)

(** In the battle phase with the pin selected and a position pending, an
    unselect whose attack throws emits exactly one error command carrying
    the player, the position and the failure, and no control; the rules
    state is exactly as before, and so are both players.  The attacked board
    may have changed: the target cell keeps its flag when the failure comes
    from the damage step. *)
Theorem failed_attack_keeps_rules_state (s : BattleState) (g g' : BattleShipGame)
    (pos : BoardPosition) (e : Failure) :
  bt_selected s = true -> bt_pos s = Some pos ->
  Game.attack (bt_player s) pos g = (inl e, g') ->
  Rules.apply BSUnselectEvent (BATTLE s, g)
  = (([ErrorCmd (AttackError (bt_player s) pos e)], []), (BATTLE s, g')) /\
  p1 g' = p1 g /\ p2 g' = p2 g.
Proof.
  intros Hsel Hpos Hrun. split.
  - unfold Rules.apply, Rules.processUnselect. simpl. by rewrite Hsel, Hpos, Hrun.
  - rewrite Game_attack_eq in Hrun. cbn zeta in Hrun.
    destruct (Board.attack _ _) as [[e0|[[shipId part]|]] b'];
      [injection Hrun as _ <-; by destruct (pinBoard _)| |done].
    destruct (Player.receiveDamage _ _ _) as [[e0|d] p'] eqn:Er; [|done].
    apply receiveDamage_roster in Er as (_ & _ & _ & _ & _ & Hsame).
    rewrite (Hsame e0 eq_refl), getPlayer_setBoard in Hrun.
    injection Hrun as _ <-.
    by destruct (pinBoard _), (defender (bt_player s)).
Qed.

Lemma failed_attack_keeps_rules_state_witness :
  Rules.apply BSUnselectEvent
    (BATTLE {| bt_player := P1; bt_selected := true; bt_pos := Some (0, 10) |},
     gameLastShip)
  = (([ErrorCmd (AttackError P1 (0, 10) (AttackOutOfBounds 0 10))], []),
     (BATTLE {| bt_player := P1; bt_selected := true; bt_pos := Some (0, 10) |},
      gameLastShip)).
Proof.
  apply (failed_attack_keeps_rules_state
           {| bt_player := P1; bt_selected := true; bt_pos := Some (0, 10) |}
           gameLastShip gameLastShip (0, 10) (AttackOutOfBounds 0 10));
    reflexivity.
Defined.
